(** * Verification of the anisotropic smoothing filter of smooth.c

    smooth.c holds two GEGL filter operations, both named [gegl:smooth]:
    the first (lines 90-247, an eight-neighbour diffusion on a raw
    [temp_buf]) and the second (lines 364-500, a four-neighbour diffusion
    with conductances normalised by their sum, over a halo buffer
    [in_expanded]).  Both are embedded below, in modules [Smooth1] and
    [Smooth2].  The file also holds a flower pattern renderer (lines
    611-798), embedded in module [Hawaiian].

    Modelling choices.
    - A [gfloat] is an exact real number ([R]); [expf] is [exp] except
      that it returns 0 where the float result underflows to 0; [fabsf] is
      [Rabs], the constants [0.707f] and [1e-6f] are the decimals they spell.
    - A GEGL buffer restricted to the processed rectangle is a function
      [x -> y -> channel -> value]; [x], [y] are offsets inside [result]
      (of extent [w] x [h]) and the channel (0..3 for R,G,B,A) is a [nat].
    - glib's [CLAMP (x, low, high)] is
      [((x) > (high)) ? (high) : (((x) < (low)) ? (low) : (x))]. *)

From Stdlib Require Import Reals Psatz Lia List Bool.
Import ListNotations.
Open Scope R_scope.

(** ** Shared parts *)

Definition buf := nat -> nat -> nat -> R.

(** glib's CLAMP macro. *)
Definition CLAMP (x low high : R) : R :=
  if Rlt_dec high x then high else if Rlt_dec x low then low else x.

(** [expf] with its range limit: rounded to the nearest float, the result
    is 0 exactly when the exact exponential is below [2^-150], half the
    smallest subnormal float; any other result is taken exactly (rounding
    is not modelled). *)
Definition expf (x : R) : R :=
  if Rlt_dec (exp x) (/ 2 ^ 150) then 0 else exp x.

(** [conductance] (lines 83-88 and 358-363): [g = gradient / kappa];
    [expf (-g * g)]. *)
Definition conductance (gradient kappa : R) : R :=
  let g := gradient / kappa in expf (- g * g).

(** Operation properties shared by both filters. *)
Record props := mk_props {
  iterations : nat;
  alpha : R;
  kappa : R;
  strength : R;
  delta_t : R
}.

Definition in_rect (w h x y : nat) : bool := Nat.ltb x w && Nat.ltb y h.

(** [gegl_buffer_copy (src, result, ..., dst, result)]: the pixels of
    [result] are copied, the rest of [dst] is untouched. *)
Definition copy_rect (w h : nat) (src dst : buf) : buf :=
  fun x y c => if in_rect w h x y then src x y c else dst x y c.

(** The early exit of both [process] functions (lines 103-107, 377-381). *)
Definition degenerate (w h : nat) : bool := Nat.ltb w 2 || Nat.ltb h 2.

(** ** The second [process] (lines 364-500) *)
Module Smooth2.

(** Valid property values (lines 302-325). *)
Definition valid (o : props) : Prop :=
  (1 <= iterations o <= 20)%nat /\
  1/10 <= alpha o <= 1 /\ 1 <= kappa o <= 15 /\
  1/2 <= strength o <= 5 /\ 5/100 <= delta_t o <= 5/10.

(** Directions in the order of [gradients[0..3]]: West, East, North,
    South. *)
Inductive dir := West | East | North | South.

(** The neighbour a direction reads, when it exists.  [in_expanded] holds
    the chunk [roi] grown by 2 pixels and clipped to [result], so
    [in_x > 0] holds exactly when the pixel is not in the first column of
    [result], [in_x < in_roi.width - 1] exactly when it is not in the last
    one, and likewise for rows: the stencil reads [temp] over the whole of
    [result], whatever the chunks of the iterator. *)
Definition neighbour (w h : nat) (d : dir) (x y : nat) : option (nat * nat) :=
  match d with
  | West => if Nat.ltb 0 x then Some (x - 1, y)%nat else None
  | East => if Nat.ltb (x + 1) w then Some (x + 1, y)%nat else None
  | North => if Nat.ltb 0 y then Some (x, y - 1)%nat else None
  | South => if Nat.ltb (y + 1) h then Some (x, y + 1)%nat else None
  end.

(** [gradients[d][j]], zero-initialised. *)
Definition gradient (w h : nat) (t : buf) (d : dir) (x y c : nat) : R :=
  match neighbour w h d x y with
  | Some (nx, ny) => t nx ny c - t x y c
  | None => 0
  end.

(** [weights[d] = conductance (fabsf (gradients[d][0]), kappa)], zero
    when the neighbour is missing. *)
Definition weight (o : props) (w h : nat) (t : buf) (d : dir) (x y : nat) : R :=
  match neighbour w h d x y with
  | Some _ => conductance (Rabs (gradient w h t d x y 0)) (kappa o)
  | None => 0
  end.

Definition weight_sum (o : props) (w h : nat) (t : buf) (x y : nat) : R :=
  weight o w h t West x y + weight o w h t East x y +
  weight o w h t North x y + weight o w h t South x y.

(** [sum[j]] (lines 473-486). *)
Definition flux (o : props) (w h : nat) (t : buf) (x y c : nat) : R :=
  let ws := weight_sum o w h t x y in
  if Rlt_dec (1/1000000) ws then
    let wn := alpha o * strength o / ws in
    CLAMP (wn * (weight o w h t West x y * gradient w h t West x y c +
                 weight o w h t East x y * gradient w h t East x y c +
                 weight o w h t North x y * gradient w h t North x y c +
                 weight o w h t South x y * gradient w h t South x y c))
          (-2) 2
  else 0.

(** The value written to [out_data] (lines 488-492); [in_data] and the
    centre of [in_expanded] both read [temp]. *)
Definition update (o : props) (w h : nat) (t : buf) (x y c : nat) : R :=
  CLAMP (t x y c + delta_t o * flux o w h t x y c) 0 1.

(** One pass of the [for (i ...)] loop on [(temp, output)]: every pixel of
    [result] is written to [output] from [temp], then [output] is copied
    back to [temp]. *)
Definition iteration (o : props) (w h : nat) (s : buf * buf) : buf * buf :=
  let (temp, out) := s in
  let out' := copy_rect w h (update o w h temp) out in
  (copy_rect w h out' temp, out').

(** [process]: returns the boolean result and the content of [output].
    [temp] is a fresh buffer (zero-filled) into which [input] is copied. *)
Definition process (o : props) (w h : nat) (input out0 : buf) : bool * buf :=
  if degenerate w h then (true, copy_rect w h input out0)
  else
    let temp0 := copy_rect w h input (fun _ _ _ => 0) in
    (true, snd (Nat.iter (iterations o) (iteration o w h) (temp0, out0))).

End Smooth2.

(** ** The first [process] (lines 90-247) *)
Module Smooth1.

(** Valid property values (lines 27-50). *)
Definition valid (o : props) : Prop :=
  (1 <= iterations o <= 20)%nat /\
  0 <= alpha o <= 1/2 /\ 5 <= kappa o <= 50 /\
  0 <= strength o <= 2 /\ 1/100 <= delta_t o <= 2/10.

(** Directions in the order of [gradients[0..7]]. *)
Inductive dir := W | E | N | S | NW | NE | SW | SE.

Definition dirs : list dir := [W; E; N; S; NW; NE; SW; SE].

(** The neighbour read by each direction; the tests are those of lines
    162-222, on the chunk [roi] of extent [w] x [h]. *)
Definition neighbour (w h : nat) (d : dir) (x y : nat) : option (nat * nat) :=
  let left := Nat.ltb 0 x in
  let right := Nat.ltb (x + 1) w in
  let up := Nat.ltb 0 y in
  let down := Nat.ltb (y + 1) h in
  match d with
  | W => if left then Some (x - 1, y)%nat else None
  | E => if right then Some (x + 1, y)%nat else None
  | N => if up then Some (x, y - 1)%nat else None
  | S => if down then Some (x, y + 1)%nat else None
  | NW => if left && up then Some (x - 1, y - 1)%nat else None
  | NE => if right && up then Some (x + 1, y - 1)%nat else None
  | SW => if left && down then Some (x - 1, y + 1)%nat else None
  | SE => if right && down then Some (x + 1, y + 1)%nat else None
  end.

Definition diagonal (d : dir) : bool :=
  match d with NW | NE | SW | SE => true | _ => false end.

(** [gradients[d][j]]; the array is not initialised, but an entry is read
    only when [weights[d] > 0], which needs the neighbour: the value 0 given
    to a missing neighbour is never used. *)
Definition gradient (w h : nat) (t : buf) (d : dir) (x y c : nat) : R :=
  match neighbour w h d x y with
  | Some (nx, ny) => t nx ny c - t x y c
  | None => 0
  end.

(** [weights[d] = conductance (gradients[d][0], kappa)], times [0.707f]
    for the diagonals, and 0 when the neighbour is missing. *)
Definition weight (o : props) (w h : nat) (t : buf) (d : dir) (x y : nat) : R :=
  match neighbour w h d x y with
  | Some _ =>
      let k := conductance (gradient w h t d x y 0) (kappa o) in
      if diagonal d then k * (707/1000) else k
  | None => 0
  end.

(** The term line 229-235 adds to [sum[c]] for direction [d]. *)
Definition contribution (o : props) (w h : nat) (t : buf) (d : dir) (x y c : nat) : R :=
  let wd := weight o w h t d x y in
  if Rlt_dec 0 wd then
    (wd * alpha o * strength o) * gradient w h t d x y c
  else 0.

Definition flux (o : props) (w h : nat) (t : buf) (x y c : nat) : R :=
  fold_left (fun acc d => acc + contribution o w h t d x y c) dirs 0.

(** The value written to [dst] (lines 238-243). *)
Definition update (o : props) (w h : nat) (t : buf) (x y c : nat) : R :=
  CLAMP (t x y c + delta_t o * flux o w h t x y c) 0 1.

(** One pass of the [for (i ...)] loop.  The iterator reads and writes
    [output]; each chunk is copied to [temp_buf] and updated from it.  The
    region is taken to be delivered as one chunk, so [roi] is [result]. *)
Definition iteration (o : props) (w h : nat) (out : buf) : buf :=
  let temp_buf := out in
  copy_rect w h (update o w h temp_buf) out.

(** [process]: [alloc_ok] is whether [g_new] returned a non-NULL
    [temp_buf]; the result is the return value and the content of
    [output]. *)
Definition process (o : props) (alloc_ok : bool) (w h : nat) (input out0 : buf)
  : bool * buf :=
  if degenerate w h then (true, copy_rect w h input out0)
  else if negb alloc_ok then (false, out0)
  else
    let out1 := copy_rect w h input out0 in
    (true, Nat.iter (iterations o) (iteration o w h) out1).

End Smooth1.

(** ** The second [process]'s pixel update with its divisions checked

    The per-pixel code of lines 418-492 in a small error-and-log monad: a
    division by zero fails ([None]); every performed division logs its
    divisor. *)
Module Smooth2Checked.
Import Smooth2.

Definition M (A : Type) : Type := option (A * list R).

Definition ret {A} (a : A) : M A := Some (a, []).

Definition bind {A B} (m : M A) (f : A -> M B) : M B :=
  match m with
  | None => None
  | Some (a, l) =>
      match f a with
      | None => None
      | Some (b, l') => Some (b, l ++ l')
      end
  end.

Notation "x <- m ;; k" := (bind m (fun x => k))
  (at level 61, m at next level, right associativity).

(** [a / b], failing when [b] is zero. *)
Definition fdiv (a b : R) : M R :=
  if Req_dec_T b 0 then None else Some (a / b, [b]).

Definition conductanceM (gradient kappa : R) : M R :=
  g <- fdiv gradient kappa ;; ret (expf (- g * g)).

Definition weightM (o : props) (w h : nat) (t : buf) (d : dir) (x y : nat) : M R :=
  match neighbour w h d x y with
  | Some _ => conductanceM (Rabs (gradient w h t d x y 0)) (kappa o)
  | None => ret 0
  end.

Definition channels : list nat := [0; 1; 2; 3]%nat.

(** The four values written to [out_data] for the pixel [(x, y)]. *)
Definition pixelM (o : props) (w h : nat) (t : buf) (x y : nat) : M (list R) :=
  w0 <- weightM o w h t West x y ;;
  w1 <- weightM o w h t East x y ;;
  w2 <- weightM o w h t North x y ;;
  w3 <- weightM o w h t South x y ;;
  let weight_sum := w0 + w1 + w2 + w3 in
  sums <- (if Rlt_dec (1/1000000) weight_sum then
             wn <- fdiv (alpha o * strength o) weight_sum ;;
             ret (map (fun j =>
                    CLAMP (wn * (w0 * gradient w h t West x y j +
                                 w1 * gradient w h t East x y j +
                                 w2 * gradient w h t North x y j +
                                 w3 * gradient w h t South x y j)) (-2) 2)
                    channels)
           else ret [0; 0; 0; 0]) ;;
  ret (map (fun j => CLAMP (t x y j + delta_t o * nth j sums 0) 0 1) channels).

(** [m] succeeds with a result satisfying [P], and every division it
    performed had a divisor above [1e-6]. *)
Definition okM {A} (P : A -> Prop) (m : M A) : Prop :=
  exists a l, m = Some (a, l) /\ P a /\ Forall (fun b => 1/1000000 < b) l.

End Smooth2Checked.

(** ** Buffers and properties used by the statements *)

(** Buffers that agree on the pixels of the rectangle for the channels in
    [cs]. *)
Definition agree_on (w h : nat) (cs : list nat) (t1 t2 : buf) : Prop :=
  forall x y c, (x < w)%nat -> (y < h)%nat -> In c cs -> t1 x y c = t2 x y c.

(** A 2x2 (or larger) region, black at its top-left pixel and white
    elsewhere. *)
Definition img_corner : buf :=
  fun x y c => if Nat.eqb x 0 && Nat.eqb y 0 then 0 else 1.

Definition black : buf := fun _ _ _ => 0.

(** The defaults of the second operation (lines 302-325), with one
    iteration. *)
Definition props2_ex : props := mk_props 1 (6/10) 4 (5/2) (3/10).

(** The defaults of the first operation (lines 27-50), with one iteration. *)
Definition props1_ex : props := mk_props 1 (2/10) 20 1 (1/10).

(** A 3x3 region, black at its centre and white elsewhere. *)
Definition img_centre : buf :=
  fun x y c => if Nat.eqb x 1 && Nat.eqb y 1 then 0 else 1.

(** Valid properties of the first operation at the top of their ranges. *)
Definition props1_max : props := mk_props 1 (1/2) 5 2 (2/10).

(** A 3x3 region whose last column is white, the rest black. *)
Definition img_step : buf := fun x y c => if Nat.eqb x 2 then 1 else 0.

(** [img_corner] with channels 1-3 replaced by 7. *)
Definition img_corner_recoloured : buf :=
  fun x y c => if Nat.eqb c 0 then img_corner x y c else 7.

(** A buffer uniform over the rectangle, colour [col]. *)
Definition uniform_on (w h : nat) (col : nat -> R) (t : buf) : Prop :=
  forall x y c, (x < w)%nat -> (y < h)%nat -> (c < 4)%nat -> t x y c = col c.

(** The per-pixel update as section 4.5 of the specification words it: an
    Euler step, the blend [0.9 * value + 0.1 * old], then the clamp to
    [0,1]. *)
Definition blended_update (old div dt : R) : R :=
  let value := old + dt * div in
  CLAMP (9/10 * value + 1/10 * old) 0 1.


(** Buffers equal on every pixel and channel of the rectangle. *)
Definition same_on (w h : nat) (t1 t2 : buf) : Prop :=
  forall x y c, (x < w)%nat -> (y < h)%nat -> t1 x y c = t2 x y c.

(** [o] with its iteration count replaced by [n]. *)
Definition with_iterations (o : props) (n : nat) : props :=
  mk_props n (alpha o) (kappa o) (strength o) (delta_t o).

(** The region mirrored left to right. *)
Definition mirror_x (w : nat) (t : buf) : buf :=
  fun x y c => t (w - 1 - x)%nat y c.

(** The direction read at the mirrored pixel. *)
Definition flip_dir (d : Smooth2.dir) : Smooth2.dir :=
  match d with
  | Smooth2.West => Smooth2.East | Smooth2.East => Smooth2.West
  | Smooth2.North => Smooth2.North | Smooth2.South => Smooth2.South
  end.

(** ** The flower pattern renderer of smooth.c (lines 611-798)

    The pattern is drawn in real arithmetic; the [libm] functions it calls
    besides [sqrtf] and [fabsf] are left abstract, as a record [m] of
    functions, so that what is proved holds whatever they compute. *)
Module Hawaiian.

Record libm := mk_libm {
  sinf : R -> R;
  floorf : R -> R;
  fmodf : R -> R -> R;
  atan2f : R -> R -> R;
  powf : R -> R -> R }.

(** The properties (lines 615-645); a colour is its R, G, B, A
    components, as [gegl_color_get_pixel] writes them. *)
Record hprops := mk_hprops {
  flower_size : R;
  flower_spacing : R;
  size_ratio : R;
  rotation_variation : R;
  petal_scale : R;
  petal_color : nat -> R;
  center_color : nat -> R }.

Definition Rltb (a b : R) : bool := if Rlt_dec a b then true else false.
Definition Rleb (a b : R) : bool := if Rle_dec a b then true else false.

Section Pixel.
Variables (m : libm) (o : hprops) (px py : R).

(** [noise] (lines 678-682). *)
Definition noise (x y : R) : R :=
  sinf m (x * (129898/10000) + y * (78233/1000)) * (437585453/10000) -
  floorf m (sinf m (x * (129898/10000) + y * (78233/1000)) * (437585453/10000)).

Definition period : R := flower_size o + flower_spacing o.
Definition base_radius : R := flower_size o * (5/10).
Definition center_radius : R := flower_size o * (1/10).

(** Lines 724-751. *)
Definition row_offset : R := floorf m (py / period) * (5/10) * period.
Definition cx : R :=
  floorf m ((px - row_offset) / period) * period + period * (5/10) + row_offset.
Definition cy : R := floorf m (py / period) * period + period * (5/10).
Definition dx : R := px - cx.
Definition dy : R := py - cy.
Definition dist : R := sqrt (dx * dx + dy * dy).
Definition seed : R := noise (cx / period) (cy / period).
Definition row : R := floorf m (py / period).
Definition col : R := floorf m ((px - row_offset) / period).
Definition size_factor : R :=
  if Rlt_dec (fmodf m (row + col) 2) 1 then 1 else size_ratio o.
Definition petal_radius : R := base_radius * size_factor.
Definition flower_center_radius : R := center_radius * size_factor.

(** Lines 753-758. *)
Definition flower_rotation : R := rotation_variation o * (seed - 5/10) * PI / 180.
Definition angle : R := atan2f m dy dx + flower_rotation.
Definition petal_angle : R := fmodf m angle (2 * PI / 5) - 2 * PI / 10.
Definition petal_width : R := petal_radius * (5/10).

(** The test of line 760. *)
Definition in_petal : bool :=
  Rltb dist petal_radius && Rltb (Rabs petal_angle) (PI / 5) &&
  Rleb flower_center_radius dist.

(** [petal_alpha] (lines 762-770). *)
Definition petal_alpha : R :=
  let t := dist / petal_radius in
  let shape_factor := (petal_scale o - 5/10) / (15/10) in
  let w := petal_width * (1 - powf m t (2 + shape_factor * 2)) in
  let angular_distance := Rabs petal_angle / (PI / 5) in
  let edge_factor := angular_distance * petal_radius / w in
  CLAMP (1 - edge_factor * (5/10)) 0 1.

(** [center_alpha] (lines 781-782). *)
Definition center_alpha : R :=
  let center_factor := dist / flower_center_radius in
  CLAMP (1 - center_factor * (5/10)) 0 1.

(** [color[0..2]] and [alpha] when the pixel is written (lines 730-792):
    transparent, then the petal if the pixel is in one, then the centre,
    which overrides the petal. *)
Definition pixel : (nat -> R) * R :=
  let '(color, alpha) :=
    if in_petal then ((fun j => petal_color o j * petal_alpha), petal_alpha)
    else ((fun _ => 0), 0) in
  if Rleb dist flower_center_radius then
    ((fun j => center_color o j * center_alpha), center_alpha)
  else (color, alpha).

End Pixel.

(** [process] (lines 684-798) on [result] of extent [w] x [h] at
    [(rx, ry)]: an empty region is copied from [input]; otherwise every
    pixel is drawn, channels 0-2 from [color] and channel 3 from [alpha]
    ([RGBA float] has no further channel). *)
Definition process (m : libm) (o : hprops) (w h : nat) (rx ry : Z) (input out : buf) : buf :=
  if Nat.ltb w 1 || Nat.ltb h 1 then copy_rect w h input out
  else
    copy_rect w h
      (fun x y c =>
         let '(color, alpha) :=
           pixel m o (IZR (Z.of_nat x + rx)) (IZR (Z.of_nat y + ry)) in
         if Nat.ltb c 3 then color c else alpha)
      out.

End Hawaiian.

(** A [libm] for the examples: [floorf] is the floor ([Int_part]),
    [fmodf] agrees with the C one when [a / b >= 0] and [atan2f] when
    [x > 0]. *)
Definition libm_ex : Hawaiian.libm :=
  Hawaiian.mk_libm sin (fun r => IZR (Int_part r))
    (fun a b => a - b * IZR (Int_part (a / b)))
    (fun y x => atan (y / x)) Rpower.

(** The default properties: size 60, spacing 40, ratio 0.5, rotation 20,
    roundness 1, petals #ff4040 and centres #ffff00. *)
Definition hprops_ex : Hawaiian.hprops :=
  Hawaiian.mk_hprops 60 40 (1/2) 20 1
    (fun j => match j with O => 1 | 1%nat => 64/255 | 2%nat => 64/255 | _ => 1 end)
    (fun j => match j with O => 1 | 1%nat => 1 | 2%nat => 0 | _ => 1 end).

(** The largest size of the term a direction adds to [sum[c]] in the
    first operation, for values in [0,1]. *)
Definition bound1 (o : props) (d : Smooth1.dir) : R :=
  alpha o * strength o * (if Smooth1.diagonal d then 707/1000 else 1).

(** ** Properties of the embedding *)

Lemma CLAMP_bounds x lo hi : lo <= hi -> lo <= CLAMP x lo hi <= hi.
Proof.
  intros Hle; unfold CLAMP.
  destruct (Rlt_dec hi x); [lra|].
  destruct (Rlt_dec x lo); lra.
Qed.

Lemma CLAMP_id x lo hi : lo <= x <= hi -> CLAMP x lo hi = x.
Proof.
  intros Hx; unfold CLAMP.
  destruct (Rlt_dec hi x); [lra|].
  destruct (Rlt_dec x lo); lra.
Qed.

Lemma in_rect_spec w h x y : in_rect w h x y = true <-> (x < w /\ y < h)%nat.
Proof.
  unfold in_rect; rewrite andb_true_iff, !Nat.ltb_lt; tauto.
Qed.

Lemma exp_le_mono x y : x <= y -> exp x <= exp y.
Proof.
  intros [Hlt|Heq]; [left; apply exp_increasing; exact Hlt | subst; lra].
Qed.

Lemma exp_INR n : exp (INR n) = exp 1 ^ n.
Proof.
  induction n as [|n IH]; [simpl; apply exp_0|].
  rewrite S_INR, exp_plus, IH; simpl; ring.
Qed.

(** [exp (-94)] is above the underflow threshold: [e^94 <= 3^94 <= 2^150]. *)
Lemma exp_m94_ge : / 2 ^ 150 <= exp (-94).
Proof.
  assert (H94 : exp 94 <= 2 ^ 150).
  { replace 94 with (INR 94) by (rewrite INR_IZR_INZ; reflexivity).
    rewrite exp_INR.
    apply Rle_trans with (3 ^ 94).
    - apply pow_incr; split; [left; apply exp_pos|apply exp_le_3].
    - rewrite !(pow_IZR 3), !(pow_IZR 2); apply IZR_le.
      apply Z.leb_le; reflexivity. }
  replace (-94) with (- (94)) by ring; rewrite exp_Ropp.
  apply Rinv_le_contravar; [apply exp_pos|exact H94].
Qed.

(** [exp (-10000)] is below it: [e^10000 >= e^151 >= 2^151]. *)
Lemma exp_m10000_lt : exp (-10000) < / 2 ^ 150.
Proof.
  assert (H2 : 2 < exp 1) by (pose proof (exp_ineq1 1 ltac:(lra)); lra).
  assert (H151 : 2 ^ 151 <= exp 10000).
  { apply Rle_trans with (exp (INR 151)).
    - rewrite exp_INR; apply pow_incr; lra.
    - apply exp_le_mono; rewrite INR_IZR_INZ; simpl; lra. }
  replace (-10000) with (- (10000)) by ring; rewrite exp_Ropp.
  assert (Hp : 0 < 2 ^ 150) by (apply pow_lt; lra).
  apply Rle_lt_trans with (/ 2 ^ 151).
  - apply Rinv_le_contravar; [apply pow_lt; lra|exact H151].
  - apply Rinv_lt_contravar; [apply Rmult_lt_0_compat; apply pow_lt; lra|].
    simpl (2 ^ 151); lra.
Qed.

Lemma expf_nonneg x : 0 <= expf x.
Proof. unfold expf; destruct (Rlt_dec _ _); [lra|left; apply exp_pos]. Qed.

Lemma expf_exact x : -94 <= x -> expf x = exp x.
Proof.
  intros Hx; unfold expf; destruct (Rlt_dec _ _) as [Hlt|]; [|reflexivity].
  pose proof exp_m94_ge; pose proof (exp_le_mono _ _ Hx); lra.
Qed.

Lemma expf_mono x y : x <= y -> expf x <= expf y.
Proof.
  intros Hxy; pose proof (exp_le_mono _ _ Hxy); unfold expf.
  assert (Hy : 0 < exp y) by apply exp_pos.
  destruct (Rlt_dec (exp x) _), (Rlt_dec (exp y) _); lra.
Qed.

Lemma conductance_nonneg g k : 0 <= conductance g k.
Proof. apply expf_nonneg. Qed.

Lemma conductance_le_1 g k : conductance g k <= 1.
Proof.
  unfold conductance; rewrite <- exp_0, <- (expf_exact 0) by lra.
  apply expf_mono; nra.
Qed.

(** Below [|gradient| <= 9 * kappa] no underflow happens. *)
Lemma conductance_exact g k :
  0 < k -> Rabs g <= 9 * k -> conductance g k = exp (- (g / k) * (g / k)).
Proof.
  intros Hk Hg; unfold conductance; apply expf_exact.
  assert (Hq : Rabs (g / k) <= 9).
  { unfold Rdiv; rewrite Rabs_mult, (Rabs_right (/ k))
      by (left; apply Rinv_0_lt_compat; lra).
    apply (Rmult_le_reg_r k); [lra|].
    rewrite Rmult_assoc, Rinv_l by lra; lra. }
  assert (Hsq : (g / k) * (g / k) <= 81).
  { assert (Hsq : (g / k) * (g / k) = Rabs (g / k) * Rabs (g / k))
      by (unfold Rabs; destruct (Rcase_abs (g / k)); ring).
    pose proof (Rabs_pos (g / k)); nra. }
  nra.
Qed.

Lemma conductance_pos g k : 0 < k -> Rabs g <= 9 * k -> 0 < conductance g k.
Proof. intros Hk Hg; rewrite conductance_exact by assumption; apply exp_pos. Qed.

Lemma copy_rect_in w h src dst x y c :
  (x < w)%nat -> (y < h)%nat -> copy_rect w h src dst x y c = src x y c.
Proof.
  intros Hx Hy; unfold copy_rect.
  replace (in_rect w h x y) with true; [reflexivity|].
  symmetry; apply in_rect_spec; auto.
Qed.

Lemma iter_succ_apply {A} (n : nat) (f : A -> A) (a : A) :
  Nat.iter (S n) f a = f (Nat.iter n f a).
Proof. reflexivity. Qed.

Lemma not_degenerate w h :
  degenerate w h = false -> (2 <= w)%nat /\ (2 <= h)%nat.
Proof.
  unfold degenerate; rewrite orb_false_iff, !Nat.ltb_ge; tauto.
Qed.

Lemma degenerate_iff w h : degenerate w h = true <-> (w < 2 \/ h < 2)%nat.
Proof.
  unfold degenerate; rewrite orb_true_iff, !Nat.ltb_lt; tauto.
Qed.

Module Smooth2Facts.
Import Smooth2.

Lemma neighbour_in_rect2 w h d x y nx ny :
  (x < w)%nat -> (y < h)%nat -> neighbour w h d x y = Some (nx, ny) ->
  (nx < w)%nat /\ (ny < h)%nat.
Proof.
  intros Hx Hy; destruct d; simpl;
    repeat match goal with
           | |- context [Nat.ltb ?a ?b] => destruct (Nat.ltb_spec a b)
           end; intros Heq; inversion Heq; subst; lia.
Qed.

Lemma gradient_ext2 w h t1 t2 d x y c :
  agree_on w h [c] t1 t2 -> (x < w)%nat -> (y < h)%nat ->
  gradient w h t1 d x y c = gradient w h t2 d x y c.
Proof.
  intros Hag Hx Hy; unfold gradient.
  destruct (neighbour w h d x y) as [[nx ny]|] eqn:Hn; [|reflexivity].
  destruct (neighbour_in_rect2 w h d x y nx ny Hx Hy Hn).
  rewrite !(Hag _ _ c) by (simpl; auto); reflexivity.
Qed.

Lemma weight_ext2 o w h t1 t2 d x y :
  agree_on w h [0%nat] t1 t2 -> (x < w)%nat -> (y < h)%nat ->
  weight o w h t1 d x y = weight o w h t2 d x y.
Proof.
  intros Hag Hx Hy; unfold weight.
  rewrite (gradient_ext2 w h t1 t2 d x y 0 Hag Hx Hy); reflexivity.
Qed.

Lemma flux_ext2 o w h t1 t2 x y c :
  agree_on w h [0%nat; c] t1 t2 -> (x < w)%nat -> (y < h)%nat ->
  flux o w h t1 x y c = flux o w h t2 x y c.
Proof.
  intros Hag Hx Hy.
  assert (H0 : agree_on w h [0%nat] t1 t2)
    by (intros ? ? ? ? ? [<-|[]]; apply Hag; simpl; auto).
  assert (Hc : agree_on w h [c] t1 t2)
    by (intros ? ? ? ? ? [<-|[]]; apply Hag; simpl; auto).
  unfold flux, weight_sum.
  rewrite !(weight_ext2 o w h t1 t2 _ x y H0 Hx Hy).
  rewrite !(gradient_ext2 w h t1 t2 _ x y c Hc Hx Hy).
  reflexivity.
Qed.

Lemma update_ext2 o w h t1 t2 x y c :
  agree_on w h [0%nat; c] t1 t2 -> (x < w)%nat -> (y < h)%nat ->
  update o w h t1 x y c = update o w h t2 x y c.
Proof.
  intros Hag Hx Hy; unfold update.
  rewrite (flux_ext2 o w h t1 t2 x y c Hag Hx Hy).
  rewrite (Hag x y c Hx Hy) by (simpl; auto); reflexivity.
Qed.

End Smooth2Facts.

Module Smooth1Facts.
Import Smooth1.

Lemma neighbour_in_rect1 w h d x y nx ny :
  (x < w)%nat -> (y < h)%nat -> neighbour w h d x y = Some (nx, ny) ->
  (nx < w)%nat /\ (ny < h)%nat.
Proof.
  intros Hx Hy; destruct d; simpl;
    repeat match goal with
           | |- context [Nat.ltb ?a ?b] => destruct (Nat.ltb_spec a b)
           end; simpl; intros Heq; inversion Heq; subst; lia.
Qed.

Lemma gradient_ext1 w h t1 t2 d x y c :
  agree_on w h [c] t1 t2 -> (x < w)%nat -> (y < h)%nat ->
  gradient w h t1 d x y c = gradient w h t2 d x y c.
Proof.
  intros Hag Hx Hy; unfold gradient.
  destruct (neighbour w h d x y) as [[nx ny]|] eqn:Hn; [|reflexivity].
  destruct (neighbour_in_rect1 w h d x y nx ny Hx Hy Hn).
  rewrite !(Hag _ _ c) by (simpl; auto); reflexivity.
Qed.

Lemma weight_ext1 o w h t1 t2 d x y :
  agree_on w h [0%nat] t1 t2 -> (x < w)%nat -> (y < h)%nat ->
  weight o w h t1 d x y = weight o w h t2 d x y.
Proof.
  intros Hag Hx Hy; unfold weight.
  rewrite (gradient_ext1 w h t1 t2 d x y 0 Hag Hx Hy); reflexivity.
Qed.

Lemma flux_ext1 o w h t1 t2 x y c :
  agree_on w h [0%nat; c] t1 t2 -> (x < w)%nat -> (y < h)%nat ->
  flux o w h t1 x y c = flux o w h t2 x y c.
Proof.
  intros Hag Hx Hy.
  assert (H0 : agree_on w h [0%nat] t1 t2)
    by (intros ? ? ? ? ? [<-|[]]; apply Hag; simpl; auto).
  assert (Hc : agree_on w h [c] t1 t2)
    by (intros ? ? ? ? ? [<-|[]]; apply Hag; simpl; auto).
  unfold flux, contribution; simpl.
  rewrite !(weight_ext1 o w h t1 t2 _ x y H0 Hx Hy).
  rewrite !(gradient_ext1 w h t1 t2 _ x y c Hc Hx Hy).
  reflexivity.
Qed.

Lemma update_ext1 o w h t1 t2 x y c :
  agree_on w h [0%nat; c] t1 t2 -> (x < w)%nat -> (y < h)%nat ->
  update o w h t1 x y c = update o w h t2 x y c.
Proof.
  intros Hag Hx Hy; unfold update.
  rewrite (flux_ext1 o w h t1 t2 x y c Hag Hx Hy).
  rewrite (Hag x y c Hx Hy) by (simpl; auto); reflexivity.
Qed.

End Smooth1Facts.

Lemma props2_ex_valid : Smooth2.valid props2_ex.
Proof. unfold Smooth2.valid; simpl; repeat split; lra || lia. Qed.

Lemma props1_ex_valid : Smooth1.valid props1_ex.
Proof. unfold Smooth1.valid; simpl; repeat split; lra || lia. Qed.

Lemma conductance_1_4 : 15/16 <= conductance (Rabs (1 - 0)) 4.
Proof.
  rewrite Rminus_0_r, Rabs_R1, conductance_exact by (rewrite ?Rabs_R1; lra).
  eapply Rle_trans; [|apply exp_ineq1_le]; lra.
Qed.

(** At the black corner, the second operation's [sum[c]] is
    [alpha * strength = 1.5]. *)
Lemma corner_flux2 c : Smooth2.flux props2_ex 2 2 img_corner 0 0 c = 3/2.
Proof.
  unfold Smooth2.flux, Smooth2.weight_sum, Smooth2.weight, Smooth2.gradient.
  cbn -[IZR Rdiv Rminus Rabs conductance].
  pose proof conductance_1_4 as He.
  set (e := conductance (Rabs (1 - 0)) 4) in *.
  destruct (Rlt_dec (1 / 1000000) (0 + e + 0 + e)) as [_|Hn]; [|lra].
  rewrite CLAMP_id; [field; lra|].
  replace (6 / 10 * (5 / 2) / (0 + e + 0 + e) *
           (0 * 0 + e * (1 - 0) + 0 * 0 + e * (1 - 0))) with (3/2)
    by (field; lra).
  lra.
Qed.

(** After one iteration the black corner holds [0 + 0.3 * 1.5 = 0.45]. *)
Lemma corner_process2 c :
  snd (Smooth2.process props2_ex 2 2 img_corner black) 0%nat 0%nat c = 9/20.
Proof.
  unfold Smooth2.process.
  replace (degenerate 2 2) with false by reflexivity.
  change (Nat.iter (iterations props2_ex) ?f ?a) with (f a).
  unfold Smooth2.iteration; cbn [snd].
  rewrite copy_rect_in by lia.
  rewrite (Smooth2Facts.update_ext2 props2_ex 2 2 _ img_corner) by
    (try lia; intros x y c' Hx Hy _; apply copy_rect_in; lia).
  unfold Smooth2.update; rewrite corner_flux2.
  cbn -[IZR Rdiv Rmult Rplus CLAMP delta_t].
  simpl delta_t.
  rewrite CLAMP_id; lra.
Qed.

(** ** The claims *)

(** C10 (as stated): for every [kappa > 0] the conductance is strictly
    positive.  False: [expf] underflows, and [conductance 100 1], which is
    [expf (-10000)], is 0. *)
Lemma C10_positive_fails :
  ~ (forall k, 0 < k -> forall g, 0 < conductance g k).
Proof.
  intros H; specialize (H 1 ltac:(lra) 100).
  unfold conductance, expf in H.
  replace (- (100 / 1) * (100 / 1)) with (-10000) in H by field.
  destruct (Rlt_dec _ _) as [_|Hn]; [lra|].
  apply Hn; exact exp_m10000_lt.
Qed.

(** C10 (amended): for every [kappa > 0], [conductance 0 kappa = 1], the
    conductance lies in [0,1], it is positive while
    [|gradient| <= 9 * kappa], and it does not increase when the absolute
    value of the gradient grows. *)
Theorem C10_conductance_shape (k : R) (Hk : 0 < k) :
  conductance 0 k = 1 /\
  (forall g, 0 <= conductance g k <= 1) /\
  (forall g, Rabs g <= 9 * k -> 0 < conductance g k) /\
  (forall g1 g2, Rabs g1 <= Rabs g2 -> conductance g2 k <= conductance g1 k).
Proof.
  split; [|split; [|split]].
  - rewrite conductance_exact by (rewrite ?Rabs_R0; lra).
    unfold Rdiv; rewrite Rmult_0_l.
    replace (- 0 * 0) with 0 by ring; apply exp_0.
  - intros g; split; [apply conductance_nonneg|apply conductance_le_1].
  - intros g Hg; apply conductance_pos; assumption.
  - intros g1 g2 Hle; unfold conductance; apply expf_mono.
    assert (Hsq : g1 * g1 <= g2 * g2).
    { revert Hle; unfold Rabs;
        destruct (Rcase_abs g1), (Rcase_abs g2); intros; nra. }
    assert (Hik : 0 < / k) by (apply Rinv_0_lt_compat; exact Hk).
    unfold Rdiv; nra.
Qed.

Lemma C10_conductance_shape_witness :
  0 < 4 /\ conductance 0 4 = 1.
Proof.
  split; [lra|].
  destruct (C10_conductance_shape 4) as [H _]; [lra|exact H].
Defined.

(** C1 (as stated): a region narrower or shorter than 3 pixels is passed
    through unchanged.  False: a 2x2 region is processed; its black corner
    becomes 0.45 after one iteration with the second operation's
    defaults. *)
Lemma C1_passthrough_below_3_fails :
  ~ (forall o w h input out0, Smooth2.valid o -> (w < 3 \/ h < 3)%nat ->
       forall x y c, (x < w)%nat -> (y < h)%nat ->
       snd (Smooth2.process o w h input out0) x y c = input x y c).
Proof.
  intros H.
  specialize (H props2_ex 2%nat 2%nat img_corner black props2_ex_valid
                (or_introl (Nat.lt_succ_diag_r 2)) 0%nat 0%nat 0%nat).
  rewrite corner_process2 in H.
  assert (Hin : img_corner 0%nat 0%nat 0%nat = 0) by reflexivity.
  rewrite Hin in H; specialize (H ltac:(lia) ltac:(lia)); lra.
Qed.

(** C1 (amended): both [process] functions pass a region narrower or
    shorter than 2 pixels through: they return TRUE and the output equals
    the input on every pixel and channel of the region. *)
Theorem C1_degenerate_passthrough (o1 o2 : props) (alloc : bool) (w h : nat)
  (input out0 : buf) (Hsmall : (w < 2 \/ h < 2)%nat) :
  Smooth1.process o1 alloc w h input out0 = (true, copy_rect w h input out0) /\
  Smooth2.process o2 w h input out0 = (true, copy_rect w h input out0) /\
  (forall x y c, (x < w)%nat -> (y < h)%nat ->
     copy_rect w h input out0 x y c = input x y c).
Proof.
  apply degenerate_iff in Hsmall.
  unfold Smooth1.process, Smooth2.process; rewrite Hsmall.
  split; [reflexivity|split; [reflexivity|]].
  intros x y c Hx Hy; apply copy_rect_in; assumption.
Qed.

Lemma C1_degenerate_passthrough_witness :
  (1 < 2 \/ 5 < 2)%nat /\
  Smooth2.process props2_ex 1 5 img_corner black
  = (true, copy_rect 1 5 img_corner black).
Proof.
  split; [lia|].
  apply (C1_degenerate_passthrough props1_ex props2_ex true 1 5 img_corner black).
  lia.
Defined.

(** C2: for inputs with every channel value in [0,1] and valid properties,
    every channel value of the output of either [process] lies in [0,1]:
    each value the diffusion loop writes is clamped to [0,1], and the
    passthrough copies the input. *)
Theorem C2_output_in_unit_interval (o1 o2 : props) (alloc : bool) (w h : nat)
  (input out0 : buf) (Hv1 : Smooth1.valid o1) (Hv2 : Smooth2.valid o2)
  (Hin : forall x y c, (x < w)%nat -> (y < h)%nat -> (c < 4)%nat ->
         0 <= input x y c <= 1) :
  (forall x y c, (x < w)%nat -> (y < h)%nat -> (c < 4)%nat ->
     0 <= snd (Smooth2.process o2 w h input out0) x y c <= 1) /\
  (forall out, Smooth1.process o1 alloc w h input out0 = (true, out) ->
     forall x y c, (x < w)%nat -> (y < h)%nat -> (c < 4)%nat ->
     0 <= out x y c <= 1).
Proof.
  split.
  - intros x y c Hx Hy Hc; unfold Smooth2.process.
    destruct (degenerate w h).
    + simpl; rewrite copy_rect_in by assumption; apply Hin; assumption.
    + destruct Hv2 as [[Hi _] _].
      destruct (iterations o2) as [|n]; [lia|].
      rewrite iter_succ_apply.
      destruct (Nat.iter n (Smooth2.iteration o2 w h) _) as [t o].
      simpl; rewrite copy_rect_in by assumption.
      unfold Smooth2.update; apply CLAMP_bounds; lra.
  - intros out Hp x y c Hx Hy Hc; unfold Smooth1.process in Hp.
    destruct (degenerate w h).
    + inversion Hp; subst; rewrite copy_rect_in by assumption; apply Hin; assumption.
    + destruct alloc; [|discriminate].
      inversion Hp; subst; clear Hp.
      induction (iterations o1) as [|n IH].
      * simpl; rewrite copy_rect_in by assumption; apply Hin; assumption.
      * rewrite iter_succ_apply; unfold Smooth1.iteration.
        rewrite copy_rect_in by assumption.
        unfold Smooth1.update; apply CLAMP_bounds; lra.
Qed.

Lemma C2_output_in_unit_interval_witness :
  0 <= snd (Smooth2.process props2_ex 2 2 img_corner black) 1%nat 1%nat 0%nat <= 1.
Proof.
  destruct (C2_output_in_unit_interval props1_ex props2_ex true 2 2 img_corner black
              props1_ex_valid props2_ex_valid) as [H _].
  - intros x y c _ _ _; unfold img_corner.
    destruct (Nat.eqb x 0 && Nat.eqb y 0); lra.
  - apply H; lia.
Defined.

(** C3 (as stated): each updated value is [blended_update old div dt].
    False for the second operation at the black corner: it writes 0.45,
    the blend gives 0.405. *)
Lemma C3_blend_fails :
  ~ (forall o w h t x y c, Smooth2.valid o ->
       Smooth2.update o w h t x y c =
       blended_update (t x y c) (Smooth2.flux o w h t x y c) (delta_t o)).
Proof.
  intros H.
  specialize (H props2_ex 2%nat 2%nat img_corner 0%nat 0%nat 0%nat props2_ex_valid).
  unfold Smooth2.update, blended_update in H.
  rewrite corner_flux2 in H.
  assert (Hin : img_corner 0%nat 0%nat 0%nat = 0) by reflexivity.
  rewrite Hin in H; simpl delta_t in H.
  rewrite !CLAMP_id in H; lra.
Qed.

(** C3 (amended): in each iteration every pixel of the region is written
    as [CLAMP (old + delta_t * sum, 0, 1)], where [old] is the value of the
    previous iteration and [sum] the diffusion term computed from it; there
    is no blend with [old].  Stated for iteration [n + 1] of both
    operations. *)
Theorem C3_euler_update_no_blend (o1 o2 : props) (w h : nat) (input out0 : buf)
  (n x y c : nat) (Hx : (x < w)%nat) (Hy : (y < h)%nat) :
  (let s := Nat.iter n (Smooth2.iteration o2 w h)
              (copy_rect w h input (fun _ _ _ => 0), out0) in
   snd (Nat.iter (S n) (Smooth2.iteration o2 w h)
          (copy_rect w h input (fun _ _ _ => 0), out0)) x y c =
   CLAMP (fst s x y c + delta_t o2 * Smooth2.flux o2 w h (fst s) x y c) 0 1) /\
  (let t := Nat.iter n (Smooth1.iteration o1 w h) (copy_rect w h input out0) in
   Nat.iter (S n) (Smooth1.iteration o1 w h) (copy_rect w h input out0) x y c =
   CLAMP (t x y c + delta_t o1 * Smooth1.flux o1 w h t x y c) 0 1).
Proof.
  split; cbv zeta; rewrite iter_succ_apply.
  - destruct (Nat.iter n (Smooth2.iteration o2 w h) _) as [t o]; simpl.
    rewrite copy_rect_in by assumption; reflexivity.
  - unfold Smooth1.iteration; rewrite copy_rect_in by assumption; reflexivity.
Qed.

Lemma C3_euler_update_no_blend_witness :
  (0 < 2)%nat /\
  snd (Nat.iter 1 (Smooth2.iteration props2_ex 2 2)
         (copy_rect 2 2 img_corner (fun _ _ _ => 0), black)) 0%nat 1%nat 2%nat =
  CLAMP (copy_rect 2 2 img_corner (fun _ _ _ => 0) 0%nat 1%nat 2%nat +
         delta_t props2_ex *
         Smooth2.flux props2_ex 2 2 (copy_rect 2 2 img_corner (fun _ _ _ => 0))
           0%nat 1%nat 2%nat) 0 1.
Proof.
  split; [lia|].
  apply (C3_euler_update_no_blend props1_ex props2_ex 2 2 img_corner black
           0 0 1 2); lia.
Defined.

Lemma conductance_1_5 : 24/25 <= conductance (1 - 0) 5.
Proof.
  rewrite Rminus_0_r, conductance_exact by (rewrite ?Rabs_R1; lra).
  eapply Rle_trans; [|apply exp_ineq1_le]; lra.
Qed.

(** At the black centre all eight neighbours of the first operation
    contribute; their sum exceeds 6.5. *)
Lemma centre_flux1 c : 2 < Smooth1.flux props1_max 3 3 img_centre 1 1 c.
Proof.
  unfold Smooth1.flux, Smooth1.contribution, Smooth1.weight, Smooth1.gradient.
  cbn -[IZR Rdiv Rminus Rabs Rmult Rplus conductance].
  pose proof conductance_1_5 as He.
  set (e := conductance (1 - 0) 5) in *.
  repeat destruct (Rlt_dec _ _); nra.
Qed.

(** C4 (as stated): the diffusion term multiplied by [delta_t] lies in
    [-0.2, 0.2].  False for the second operation at the black corner,
    where it is 1.5. *)
Lemma C4_div_clamp_fails :
  ~ (forall o w h t x y c, Smooth2.valid o -> (x < w)%nat -> (y < h)%nat ->
       -(2/10) <= Smooth2.flux o w h t x y c <= 2/10).
Proof.
  intros H.
  specialize (H props2_ex 2%nat 2%nat img_corner 0%nat 0%nat 0%nat props2_ex_valid
                ltac:(lia) ltac:(lia)).
  rewrite corner_flux2 in H; lra.
Qed.

(** C4 (amended): the second operation's term is
    [alpha * strength * (sum_d w_d g_d) / (sum_d w_d)], not averaged by 2 and
    clamped to [-2, 2], when [sum_d w_d > 1e-6], and 0 otherwise; so it
    always lies in [-2, 2].  The first operation does not clamp its term:
    it exceeds 2 at the black centre of a 3x3 region. *)
Theorem C4_div_clamp (o : props) (w h : nat) (t : buf) (x y c : nat) :
  (-2 <= Smooth2.flux o w h t x y c <= 2 /\
   (1/1000000 < Smooth2.weight_sum o w h t x y ->
    Smooth2.flux o w h t x y c =
    CLAMP (alpha o * strength o *
           (Smooth2.weight o w h t Smooth2.West x y * Smooth2.gradient w h t Smooth2.West x y c +
            Smooth2.weight o w h t Smooth2.East x y * Smooth2.gradient w h t Smooth2.East x y c +
            Smooth2.weight o w h t Smooth2.North x y * Smooth2.gradient w h t Smooth2.North x y c +
            Smooth2.weight o w h t Smooth2.South x y * Smooth2.gradient w h t Smooth2.South x y c)
           / Smooth2.weight_sum o w h t x y) (-2) 2) /\
   (Smooth2.weight_sum o w h t x y <= 1/1000000 -> Smooth2.flux o w h t x y c = 0)) /\
  2 < Smooth1.flux props1_max 3 3 img_centre 1 1 c.
Proof.
  split; [|apply centre_flux1].
  unfold Smooth2.flux.
  destruct (Rlt_dec (1/1000000) (Smooth2.weight_sum o w h t x y)) as [Hlt|Hn].
  - split; [apply CLAMP_bounds; lra|].
    split; [|intros; lra].
    intros _; f_equal; unfold Rdiv; ring.
  - split; [lra|]; split; [intros; contradiction|reflexivity].
Qed.

Lemma flat_update2 o w h col t x y c :
  uniform_on w h col t -> 0 <= col c <= 1 ->
  (x < w)%nat -> (y < h)%nat -> (c < 4)%nat ->
  Smooth2.update o w h t x y c = col c.
Proof.
  intros Hu Hcol Hx Hy Hc.
  assert (Hg : forall d, Smooth2.gradient w h t d x y c = 0).
  { intros d; unfold Smooth2.gradient.
    destruct (Smooth2.neighbour w h d x y) as [[nx ny]|] eqn:Hn; [|reflexivity].
    destruct (Smooth2Facts.neighbour_in_rect2 w h d x y nx ny Hx Hy Hn).
    rewrite !Hu by assumption; ring. }
  unfold Smooth2.update, Smooth2.flux; rewrite !Hg, (Hu x y c Hx Hy Hc).
  destruct (Rlt_dec _ _).
  - rewrite (CLAMP_id _ (-2) 2) by lra.
    rewrite CLAMP_id; [ring|]. nra.
  - rewrite CLAMP_id; [ring|]. lra.
Qed.

Lemma flat_update1 o w h col t x y c :
  uniform_on w h col t -> 0 <= col c <= 1 ->
  (x < w)%nat -> (y < h)%nat -> (c < 4)%nat ->
  Smooth1.update o w h t x y c = col c.
Proof.
  intros Hu Hcol Hx Hy Hc.
  assert (Hg : forall d, Smooth1.gradient w h t d x y c = 0).
  { intros d; unfold Smooth1.gradient.
    destruct (Smooth1.neighbour w h d x y) as [[nx ny]|] eqn:Hn; [|reflexivity].
    destruct (Smooth1Facts.neighbour_in_rect1 w h d x y nx ny Hx Hy Hn).
    rewrite !Hu by assumption; ring. }
  assert (Hz : Smooth1.flux o w h t x y c = 0).
  { unfold Smooth1.flux, Smooth1.contribution; simpl; rewrite !Hg.
    repeat destruct (Rlt_dec _ _); ring. }
  unfold Smooth1.update; rewrite Hz, (Hu x y c Hx Hy Hc).
  rewrite CLAMP_id; [ring|lra].
Qed.

(** C5: for a region of uniform colour [col] (channels in [0,1]), the
    output of the second operation (for any properties with at least one
    iteration) and of the first operation, when it succeeds, is uniform of
    the same colour: each iteration leaves a uniform buffer unchanged. *)
Theorem C5_flat_field (o1 o2 : props) (alloc : bool) (w h : nat) (input out0 : buf)
  (col : nat -> R) (Hcol : forall c, (c < 4)%nat -> 0 <= col c <= 1)
  (Hflat : uniform_on w h col input) (Hit : (1 <= iterations o2)%nat) :
  uniform_on w h col (snd (Smooth2.process o2 w h input out0)) /\
  (forall out, Smooth1.process o1 alloc w h input out0 = (true, out) ->
     uniform_on w h col out).
Proof.
  split.
  - intros x y c Hx Hy Hc; unfold Smooth2.process.
    destruct (degenerate w h).
    + simpl; rewrite copy_rect_in by assumption; apply Hflat; assumption.
    + assert (Hinv : forall n, uniform_on w h col
                (fst (Nat.iter n (Smooth2.iteration o2 w h)
                        (copy_rect w h input (fun _ _ _ => 0), out0)))).
      { induction n as [|n IH].
        - intros x' y' c' Hx' Hy' Hc'; simpl.
          rewrite copy_rect_in by assumption; apply Hflat; assumption.
        - rewrite iter_succ_apply.
          destruct (Nat.iter n (Smooth2.iteration o2 w h) _) as [t o]; simpl in *.
          intros x' y' c' Hx' Hy' Hc'.
          rewrite !copy_rect_in by assumption.
          apply (flat_update2 o2 w h col); auto. }
      destruct (iterations o2) as [|n]; [lia|].
      rewrite iter_succ_apply.
      pose proof (Hinv n) as Hn.
      destruct (Nat.iter n (Smooth2.iteration o2 w h) _) as [t o]; simpl in *.
      rewrite copy_rect_in by assumption.
      apply (flat_update2 o2 w h col); auto.
  - intros out Hp; unfold Smooth1.process in Hp.
    destruct (degenerate w h).
    + inversion Hp; subst; intros x y c Hx Hy Hc.
      rewrite copy_rect_in by assumption; apply Hflat; assumption.
    + destruct alloc; [|discriminate].
      inversion Hp; subst; clear Hp.
      induction (iterations o1) as [|n IH]; intros x y c Hx Hy Hc.
      * simpl; rewrite copy_rect_in by assumption; apply Hflat; assumption.
      * rewrite iter_succ_apply; unfold Smooth1.iteration.
        rewrite copy_rect_in by assumption.
        apply (flat_update1 o1 w h col); auto.
Qed.

Lemma C5_flat_field_witness :
  snd (Smooth2.process props2_ex 3 3 (fun _ _ _ => 1/2) black) 1%nat 2%nat 3%nat = 1/2.
Proof.
  destruct (C5_flat_field props1_ex props2_ex true 3 3 (fun _ _ _ => 1/2) black
              (fun _ => 1/2)) as [H _].
  - intros; lra.
  - intros x y c _ _ _; reflexivity.
  - simpl; lia.
  - apply H; lia.
Defined.

(** C6 (as stated): the horizontal gradient the engine uses is the central
    difference [(P(x+1,y) - P(x-1,y)) / 2].  False: at the middle of
    [img_step] the central difference is 0.5, but the East and West
    gradients of both operations are 1 and 0 (0 also when negated). *)
Lemma C6_central_difference_fails :
  let central := (img_step 2%nat 1%nat 0%nat - img_step 0%nat 1%nat 0%nat) / 2 in
  central = 1/2 /\
  Smooth2.gradient 3 3 img_step Smooth2.East 1 1 0 <> central /\
  Smooth2.gradient 3 3 img_step Smooth2.West 1 1 0 <> central /\
  - Smooth2.gradient 3 3 img_step Smooth2.West 1 1 0 <> central /\
  Smooth1.gradient 3 3 img_step Smooth1.E 1 1 0 <> central /\
  Smooth1.gradient 3 3 img_step Smooth1.W 1 1 0 <> central /\
  - Smooth1.gradient 3 3 img_step Smooth1.W 1 1 0 <> central.
Proof.
  cbv zeta; unfold Smooth2.gradient, Smooth1.gradient, img_step.
  cbn -[IZR Rdiv Rminus Ropp].
  repeat split; lra.
Qed.

(** C6 (amended): the engine uses one-sided differences to each neighbour,
    [g_d[c] = P(neighbour_d)[c] - P(x,y)[c]], for West, East, North and
    South, and in the first operation also for the diagonals NW, NE, SW and
    SE.  A direction whose neighbour lies outside the region has weight 0
    and adds nothing to the sum: in the second operation its gradient keeps
    its initial 0; in the first, where [gradients] is not initialised, the
    test [weights[d] > 0] keeps its gradient from being read. *)
Theorem C6_one_sided_differences (o : props) (w h : nat) (t : buf) (x y c : nat) :
  Smooth2.gradient w h t Smooth2.West x y c =
    (if Nat.ltb 0 x then t (x - 1)%nat y c - t x y c else 0) /\
  Smooth2.gradient w h t Smooth2.East x y c =
    (if Nat.ltb (x + 1) w then t (x + 1)%nat y c - t x y c else 0) /\
  Smooth2.gradient w h t Smooth2.North x y c =
    (if Nat.ltb 0 y then t x (y - 1)%nat c - t x y c else 0) /\
  Smooth2.gradient w h t Smooth2.South x y c =
    (if Nat.ltb (y + 1) h then t x (y + 1)%nat c - t x y c else 0) /\
  (forall d, Smooth2.neighbour w h d x y = None ->
     Smooth2.gradient w h t d x y c = 0 /\ Smooth2.weight o w h t d x y = 0) /\
  (Nat.ltb 0 x = true ->
     Smooth1.gradient w h t Smooth1.W x y c = t (x - 1)%nat y c - t x y c) /\
  (Nat.ltb (x + 1) w = true ->
     Smooth1.gradient w h t Smooth1.E x y c = t (x + 1)%nat y c - t x y c) /\
  (Nat.ltb 0 y = true ->
     Smooth1.gradient w h t Smooth1.N x y c = t x (y - 1)%nat c - t x y c) /\
  (Nat.ltb (y + 1) h = true ->
     Smooth1.gradient w h t Smooth1.S x y c = t x (y + 1)%nat c - t x y c) /\
  (Nat.ltb 0 x && Nat.ltb 0 y = true ->
     Smooth1.gradient w h t Smooth1.NW x y c = t (x - 1)%nat (y - 1)%nat c - t x y c) /\
  (Nat.ltb (x + 1) w && Nat.ltb 0 y = true ->
     Smooth1.gradient w h t Smooth1.NE x y c = t (x + 1)%nat (y - 1)%nat c - t x y c) /\
  (Nat.ltb 0 x && Nat.ltb (y + 1) h = true ->
     Smooth1.gradient w h t Smooth1.SW x y c = t (x - 1)%nat (y + 1)%nat c - t x y c) /\
  (Nat.ltb (x + 1) w && Nat.ltb (y + 1) h = true ->
     Smooth1.gradient w h t Smooth1.SE x y c = t (x + 1)%nat (y + 1)%nat c - t x y c) /\
  (forall d, Smooth1.neighbour w h d x y = None ->
     Smooth1.weight o w h t d x y = 0 /\ Smooth1.contribution o w h t d x y c = 0).
Proof.
  assert (Hw1 : forall d, Smooth1.neighbour w h d x y = None ->
                Smooth1.weight o w h t d x y = 0).
  { intros d Hn; unfold Smooth1.weight; rewrite Hn; reflexivity. }
  repeat split;
    try (intros Hc; unfold Smooth1.gradient, Smooth1.neighbour; cbv zeta;
         rewrite Hc; reflexivity).
  all: try (match goal with Hn : Smooth2.neighbour _ _ _ _ _ = None |- _ =>
              unfold Smooth2.gradient, Smooth2.weight; rewrite Hn; reflexivity end).
  all: try (match goal with Hn : Smooth1.neighbour _ _ _ _ _ = None |- _ =>
              first [ exact (Hw1 _ Hn)
                    | unfold Smooth1.contribution; rewrite (Hw1 _ Hn);
                      destruct (Rlt_dec 0 0); [lra|reflexivity] ] end).
  all: unfold Smooth2.gradient; simpl;
       repeat match goal with |- context [Nat.ltb ?a ?b] => destruct (Nat.ltb a b) end;
       reflexivity.
Qed.

(** C7: when the region is not degenerate and the allocation of
    [temp_buf] fails, the first [process] returns FALSE with [output] left
    as it was; and FALSE is returned only then: a FALSE result always comes
    with an unwritten output. *)
Theorem C7_alloc_failure_no_output (o : props) (w h : nat) (input out0 : buf)
  (Hw : (2 <= w)%nat) (Hh : (2 <= h)%nat) :
  Smooth1.process o false w h input out0 = (false, out0) /\
  (forall ok out, Smooth1.process o ok w h input out0 = (false, out) ->
     ok = false /\ out = out0).
Proof.
  assert (Hd : degenerate w h = false).
  { unfold degenerate; apply orb_false_iff; split; apply Nat.ltb_ge; assumption. }
  unfold Smooth1.process; rewrite Hd; split; [reflexivity|].
  intros ok out Hp; destruct ok; simpl in Hp; inversion Hp; auto.
Qed.

Lemma C7_alloc_failure_no_output_witness :
  Smooth1.process props1_ex false 3 3 img_centre black = (false, black).
Proof.
  apply (C7_alloc_failure_no_output props1_ex 3 3 img_centre black); lia.
Defined.

Lemma agree_on_0_0 w h t1 t2 :
  agree_on w h [0%nat] t1 t2 -> agree_on w h [0%nat; 0%nat] t1 t2.
Proof.
  intros H x y c Hx Hy Hc; apply H; auto.
  destruct Hc as [<-|[<-|[]]]; simpl; auto.
Qed.

(** C9: the conductance weights depend on channel 0 only.  For two inputs
    that agree on channel 0 at every pixel of the region, the weights of
    every direction at every pixel are the same at every iteration of
    either operation, whatever channels 1-3 hold. *)
Theorem C9_weights_from_channel0 (o1 o2 : props) (w h : nat) (in1 in2 out1 out2 : buf)
  (Hag : agree_on w h [0%nat] in1 in2) :
  (forall n d x y, (x < w)%nat -> (y < h)%nat ->
     Smooth2.weight o2 w h
       (fst (Nat.iter n (Smooth2.iteration o2 w h)
               (copy_rect w h in1 (fun _ _ _ => 0), out1))) d x y =
     Smooth2.weight o2 w h
       (fst (Nat.iter n (Smooth2.iteration o2 w h)
               (copy_rect w h in2 (fun _ _ _ => 0), out2))) d x y) /\
  (forall n d x y, (x < w)%nat -> (y < h)%nat ->
     Smooth1.weight o1 w h
       (Nat.iter n (Smooth1.iteration o1 w h) (copy_rect w h in1 out1)) d x y =
     Smooth1.weight o1 w h
       (Nat.iter n (Smooth1.iteration o1 w h) (copy_rect w h in2 out2)) d x y).
Proof.
  split.
  - intros n d x y Hx Hy; apply Smooth2Facts.weight_ext2; auto.
    induction n as [|n IH].
    + intros x' y' c Hx' Hy' Hc; simpl.
      rewrite !copy_rect_in by assumption; apply Hag; auto.
    + rewrite !iter_succ_apply.
      destruct (Nat.iter n (Smooth2.iteration o2 w h) (_, out1)) as [t1 u1].
      destruct (Nat.iter n (Smooth2.iteration o2 w h) (_, out2)) as [t2 u2].
      simpl in *.
      intros x' y' c Hx' Hy' Hc.
      rewrite !copy_rect_in by assumption.
      destruct Hc as [<-|[]].
      apply Smooth2Facts.update_ext2; auto; apply agree_on_0_0; exact IH.
  - intros n d x y Hx Hy; apply Smooth1Facts.weight_ext1; auto.
    induction n as [|n IH].
    + intros x' y' c Hx' Hy' Hc; simpl.
      rewrite !copy_rect_in by assumption; apply Hag; auto.
    + rewrite !iter_succ_apply; unfold Smooth1.iteration at 1 3.
      intros x' y' c Hx' Hy' Hc.
      rewrite !copy_rect_in by assumption.
      destruct Hc as [<-|[]].
      apply Smooth1Facts.update_ext1; auto; apply agree_on_0_0; exact IH.
Qed.

Lemma C9_weights_from_channel0_witness :
  Smooth2.weight props2_ex 2 2
    (fst (Nat.iter 3 (Smooth2.iteration props2_ex 2 2)
            (copy_rect 2 2 img_corner (fun _ _ _ => 0), black))) Smooth2.East 0%nat 0%nat =
  Smooth2.weight props2_ex 2 2
    (fst (Nat.iter 3 (Smooth2.iteration props2_ex 2 2)
            (copy_rect 2 2 img_corner_recoloured (fun _ _ _ => 0), black)))
    Smooth2.East 0%nat 0%nat.
Proof.
  destruct (C9_weights_from_channel0 props1_ex props2_ex 2 2 img_corner
              img_corner_recoloured black black) as [H _].
  - intros x y c _ _ [<-|[]]; reflexivity.
  - apply H; lia.
Defined.

Module Smooth2CheckedFacts.
Import Smooth2 Smooth2Checked.

Lemma okM_ret {A} (P : A -> Prop) (a : A) : P a -> okM P (ret a).
Proof. intros Ha; exists a, []; split; [reflexivity|split; [exact Ha|constructor]]. Qed.

Lemma okM_bind {A B} (P : A -> Prop) (Q : B -> Prop) (m : M A) (f : A -> M B) :
  okM P m -> (forall a, P a -> okM Q (f a)) -> okM Q (bind m f).
Proof.
  intros (a & l & Hm & Ha & Hl) Hf.
  destruct (Hf a Ha) as (b & l' & Hfa & Hb & Hl').
  exists b, (l ++ l'); split; [|split; [exact Hb|apply Forall_app; split; assumption]].
  rewrite Hm; simpl; rewrite Hfa; reflexivity.
Qed.

Lemma fdiv_ok a b : 1/1000000 < b -> okM (fun v => v = a / b) (fdiv a b).
Proof.
  intros Hb; unfold fdiv; destruct (Req_dec_T b 0) as [He|_]; [lra|].
  exists (a / b), [b]; split; [reflexivity|split; [reflexivity|]].
  constructor; [exact Hb|constructor].
Qed.

Lemma weightM_ok o w h t d x y :
  1 <= kappa o -> okM (fun v => v = weight o w h t d x y) (weightM o w h t d x y).
Proof.
  intros Hk; unfold weightM, weight.
  destruct (neighbour w h d x y) as [p|]; [|apply okM_ret; reflexivity].
  unfold conductanceM.
  apply okM_bind with (P := fun g => g = Rabs (gradient w h t d x y 0) / kappa o).
  - apply fdiv_ok; lra.
  - intros g ->; apply okM_ret; reflexivity.
Qed.

End Smooth2CheckedFacts.

(** C8: the second operation's pixel update has no error path.  With valid
    properties, for every buffer and pixel the checked update succeeds;
    every division it performs (by [kappa] in [conductance], by the weight
    sum in line 476, which runs only under [weight_sum > 1e-6f]) has a
    divisor above [1e-6]; and the four values it writes are those of the
    pure embedding [Smooth2.update]. *)
Theorem C8_pixel_update_total (o : props) (w h : nat) (t : buf) (x y : nat)
  (Hv : Smooth2.valid o) :
  exists vs ds, Smooth2Checked.pixelM o w h t x y = Some (vs, ds) /\
    Forall (fun b => 1/1000000 < b) ds /\
    (forall j, (j < 4)%nat -> nth j vs 0 = Smooth2.update o w h t x y j).
Proof.
  destruct Hv as (_ & _ & [Hk _] & _).
  cut (Smooth2Checked.okM
         (fun vs => forall j, (j < 4)%nat -> nth j vs 0 = Smooth2.update o w h t x y j)
         (Smooth2Checked.pixelM o w h t x y)).
  { intros (vs & ds & H1 & H2 & H3); exists vs, ds; auto. }
  unfold Smooth2Checked.pixelM.
  eapply Smooth2CheckedFacts.okM_bind;
    [apply (Smooth2CheckedFacts.weightM_ok _ _ _ _ Smooth2.West); exact Hk|intros w0 ->].
  eapply Smooth2CheckedFacts.okM_bind;
    [apply (Smooth2CheckedFacts.weightM_ok _ _ _ _ Smooth2.East); exact Hk|intros w1 ->].
  eapply Smooth2CheckedFacts.okM_bind;
    [apply (Smooth2CheckedFacts.weightM_ok _ _ _ _ Smooth2.North); exact Hk|intros w2 ->].
  eapply Smooth2CheckedFacts.okM_bind;
    [apply (Smooth2CheckedFacts.weightM_ok _ _ _ _ Smooth2.South); exact Hk|intros w3 ->].
  apply Smooth2CheckedFacts.okM_bind with
    (P := fun sums => forall j, (j < 4)%nat -> nth j sums 0 = Smooth2.flux o w h t x y j).
  - destruct (Rlt_dec _ _) as [Hlt|Hn].
    + eapply Smooth2CheckedFacts.okM_bind;
        [apply Smooth2CheckedFacts.fdiv_ok; exact Hlt|intros wn ->].
      apply Smooth2CheckedFacts.okM_ret; intros j Hj.
      unfold Smooth2.flux, Smooth2.weight_sum.
      destruct (Rlt_dec _ _); [|contradiction].
      destruct j as [|[|[|[|j]]]]; [reflexivity..|lia].
    + apply Smooth2CheckedFacts.okM_ret; intros j Hj.
      unfold Smooth2.flux, Smooth2.weight_sum.
      destruct (Rlt_dec _ _); [contradiction|].
      destruct j as [|[|[|[|j]]]]; [reflexivity..|lia].
  - intros sums Hs; apply Smooth2CheckedFacts.okM_ret; intros j Hj.
    unfold Smooth2.update.
    destruct j as [|[|[|[|j]]]]; [..|lia]; simpl; rewrite Hs by lia; reflexivity.
Qed.

Lemma C8_pixel_update_total_witness :
  Smooth2.valid props2_ex /\
  exists vs ds, Smooth2Checked.pixelM props2_ex 2 2 img_corner 0 0 = Some (vs, ds) /\
    Forall (fun b => 1/1000000 < b) ds /\
    (forall j, (j < 4)%nat -> nth j vs 0 = Smooth2.update props2_ex 2 2 img_corner 0 0 j).
Proof.
  split; [exact props2_ex_valid|].
  apply (C8_pixel_update_total props2_ex 2 2 img_corner 0 0 props2_ex_valid).
Defined.

(** ** Further properties of both operations *)

Lemma agree_on_mono w h cs cs' t1 t2 :
  (forall c, In c cs' -> In c cs) -> agree_on w h cs t1 t2 -> agree_on w h cs' t1 t2.
Proof. intros Hs H x y c Hx Hy Hc; apply H; auto. Qed.

Lemma same_on_agree_on w h cs t1 t2 : same_on w h t1 t2 -> agree_on w h cs t1 t2.
Proof. intros H x y c Hx Hy _; apply H; assumption. Qed.

Module Smooth2Iter.
Import Smooth2.

Lemma update_agree2 o w h cs t1 t2 :
  In 0%nat cs -> agree_on w h cs t1 t2 ->
  agree_on w h cs (update o w h t1) (update o w h t2).
Proof.
  intros H0 H x y c Hx Hy Hc; apply Smooth2Facts.update_ext2; auto.
  apply (agree_on_mono w h cs); auto; intros c' [<-|[<-|[]]]; auto.
Qed.

(** The working copy follows the update on the rectangle. *)
Lemma iter_fst_agree o w h cs n s1 s2 :
  In 0%nat cs -> agree_on w h cs (fst s1) (fst s2) ->
  agree_on w h cs (fst (Nat.iter n (iteration o w h) s1))
                  (fst (Nat.iter n (iteration o w h) s2)).
Proof.
  intros H0 H; induction n as [|n IH]; [exact H|].
  rewrite !iter_succ_apply.
  destruct (Nat.iter n (iteration o w h) s1) as [t1 u1].
  destruct (Nat.iter n (iteration o w h) s2) as [t2 u2]; simpl in *.
  intros x y c Hx Hy Hc; rewrite !copy_rect_in by assumption.
  apply (update_agree2 o w h cs); auto.
Qed.

Lemma iter_snd_agree o w h cs n s1 s2 :
  In 0%nat cs -> agree_on w h cs (fst s1) (fst s2) ->
  agree_on w h cs (snd (Nat.iter (S n) (iteration o w h) s1))
                  (snd (Nat.iter (S n) (iteration o w h) s2)).
Proof.
  intros H0 H; pose proof (iter_fst_agree o w h cs n s1 s2 H0 H) as Hn.
  rewrite !iter_succ_apply.
  destruct (Nat.iter n (iteration o w h) s1) as [t1 u1].
  destruct (Nat.iter n (iteration o w h) s2) as [t2 u2]; simpl in *.
  intros x y c Hx Hy Hc; rewrite !copy_rect_in by assumption.
  apply (update_agree2 o w h cs); auto.
Qed.

(** After at least one iteration, [temp] and [output] hold the same
    region. *)
Lemma iter_ping_pong o w h n s :
  same_on w h (fst (Nat.iter (S n) (iteration o w h) s))
              (snd (Nat.iter (S n) (iteration o w h) s)).
Proof.
  rewrite iter_succ_apply; destruct (Nat.iter n (iteration o w h) s) as [t u].
  simpl; intros x y c Hx Hy; rewrite !copy_rect_in by assumption; reflexivity.
Qed.

End Smooth2Iter.

Module Smooth1Iter.
Import Smooth1.

Lemma update_agree1 o w h cs t1 t2 :
  In 0%nat cs -> agree_on w h cs t1 t2 ->
  agree_on w h cs (update o w h t1) (update o w h t2).
Proof.
  intros H0 H x y c Hx Hy Hc; apply Smooth1Facts.update_ext1; auto.
  apply (agree_on_mono w h cs); auto; intros c' [<-|[<-|[]]]; auto.
Qed.

Lemma iter_agree o w h cs n t1 t2 :
  In 0%nat cs -> agree_on w h cs t1 t2 ->
  agree_on w h cs (Nat.iter n (iteration o w h) t1) (Nat.iter n (iteration o w h) t2).
Proof.
  intros H0 H; induction n as [|n IH]; [exact H|].
  rewrite !iter_succ_apply; unfold iteration at 1 3.
  intros x y c Hx Hy Hc; rewrite !copy_rect_in by assumption.
  apply (update_agree1 o w h cs); auto.
Qed.

End Smooth1Iter.

Lemma iteration2_with_iterations o k w h :
  Smooth2.iteration (with_iterations o k) w h = Smooth2.iteration o w h.
Proof. reflexivity. Qed.

Lemma iteration1_with_iterations o k w h :
  Smooth1.iteration (with_iterations o k) w h = Smooth1.iteration o w h.
Proof. reflexivity. Qed.

(** X2: channel [c] of the output, on the rectangle, is determined by
    channels 0 and [c] of the input on the rectangle: the initial content of
    [output], the input outside [result] and the other channels play no
    part.  For the second operation at least one iteration is needed (with
    none, [output] is never written); for the first, its allocation must
    succeed. *)
Theorem X2_output_channel_determined (o1 o2 : props) (w h c : nat)
  (inA inB outA outB : buf) (Hin : agree_on w h [0%nat; c] inA inB)
  (Hit : (1 <= iterations o2)%nat) :
  agree_on w h [0%nat; c] (snd (Smooth2.process o2 w h inA outA))
                          (snd (Smooth2.process o2 w h inB outB)) /\
  agree_on w h [0%nat; c] (snd (Smooth1.process o1 true w h inA outA))
                          (snd (Smooth1.process o1 true w h inB outB)).
Proof.
  assert (H0 : In 0%nat [0%nat; c]) by (simpl; auto).
  unfold Smooth2.process, Smooth1.process.
  destruct (degenerate w h); simpl.
  - split; intros x y c' Hx Hy Hc; rewrite !copy_rect_in by assumption;
      apply Hin; assumption.
  - split.
    + destruct (iterations o2) as [|n]; [lia|].
      apply Smooth2Iter.iter_snd_agree; [exact H0|].
      intros x y c' Hx Hy Hc; simpl; rewrite !copy_rect_in by assumption.
      apply Hin; assumption.
    + apply Smooth1Iter.iter_agree; [exact H0|].
      intros x y c' Hx Hy Hc; rewrite !copy_rect_in by assumption.
      apply Hin; assumption.
Qed.

Lemma X2_output_channel_determined_witness :
  snd (Smooth2.process props2_ex 2 2 img_corner black) 1%nat 1%nat 0%nat =
  snd (Smooth2.process props2_ex 2 2 img_corner_recoloured img_centre) 1%nat 1%nat 0%nat.
Proof.
  destruct (X2_output_channel_determined props1_ex props2_ex 2 2 0 img_corner
              img_corner_recoloured black img_centre) as [H _].
  - intros x y c _ _ [<-|[<-|[]]]; reflexivity.
  - simpl; lia.
  - apply H; simpl; auto.
Defined.

(** X3: running [n + m] iterations gives, on the rectangle, the same
    output as running [n] iterations and feeding their output to a run of
    [m] iterations (with any initial output): [process] is the iterate of
    one diffusion step.  For both operations, with [n, m >= 1]. *)
Theorem X3_iterations_compose (o : props) (n m w h : nat) (input out0 out1 : buf)
  (Hn : (1 <= n)%nat) (Hm : (1 <= m)%nat) :
  same_on w h (snd (Smooth2.process (with_iterations o (n + m)) w h input out0))
    (snd (Smooth2.process (with_iterations o m) w h
            (snd (Smooth2.process (with_iterations o n) w h input out0)) out1)) /\
  same_on w h (snd (Smooth1.process (with_iterations o (n + m)) true w h input out0))
    (snd (Smooth1.process (with_iterations o m) true w h
            (snd (Smooth1.process (with_iterations o n) true w h input out0)) out1)).
Proof.
  unfold Smooth2.process, Smooth1.process.
  rewrite !iteration2_with_iterations, !iteration1_with_iterations.
  cbn [iterations with_iterations].
  destruct (degenerate w h); simpl.
  - split; intros x y c Hx Hy; rewrite !copy_rect_in by assumption; reflexivity.
  - rewrite (Nat.add_comm n m), !Nat.iter_add.
    split; intros x y c Hx Hy.
    + destruct m as [|m]; [lia|].
      apply (Smooth2Iter.iter_snd_agree o w h [0%nat; c] m); simpl; auto.
      intros x' y' c' Hx' Hy' _; rewrite copy_rect_in by assumption.
      destruct n as [|n]; [lia|].
      exact (Smooth2Iter.iter_ping_pong o w h n _ x' y' c' Hx' Hy').
    + apply (Smooth1Iter.iter_agree o w h [0%nat; c] m); simpl; auto.
      intros x' y' c' Hx' Hy' _; rewrite copy_rect_in by assumption; reflexivity.
Qed.

Lemma X3_iterations_compose_witness :
  (1 <= 2)%nat /\ (1 <= 3)%nat /\
  same_on 2 2 (snd (Smooth2.process (with_iterations props2_ex (2 + 3)) 2 2 img_corner black))
    (snd (Smooth2.process (with_iterations props2_ex 3) 2 2
            (snd (Smooth2.process (with_iterations props2_ex 2) 2 2 img_corner black))
            img_centre)).
Proof.
  split; [lia|split; [lia|]].
  apply (X3_iterations_compose props2_ex 2 3 2 2 img_corner black img_centre); lia.
Defined.

Lemma exp_m1_ge : 1/3 <= exp (-1).
Proof.
  replace (-1) with (- (1)) by ring; rewrite exp_Ropp.
  assert (H3 := exp_le_3); assert (Hp := exp_pos 1).
  replace (1/3) with (/3) by field.
  apply Rinv_le_contravar; lra.
Qed.

Lemma conductance_ge_exp_m1 g k :
  Rabs g <= 1 -> 1 <= k -> 1/3 <= conductance (Rabs g) k.
Proof.
  intros Hg Hk; rewrite conductance_exact by (rewrite ?Rabs_Rabsolu; lra).
  eapply Rle_trans; [apply exp_m1_ge|]; apply exp_le_mono.
  assert (Hik : 0 < / k <= 1).
  { split; [apply Rinv_0_lt_compat; lra|].
    rewrite <- Rinv_1; apply Rinv_le_contravar; lra. }
  assert (Ha := Rabs_pos g).
  assert (Hq : 0 <= Rabs g * / k <= 1) by (split; nra).
  unfold Rdiv; nra.
Qed.

Module Smooth2Guard.
Import Smooth2.

Lemma weight_nonneg o w h t d x y : 0 <= weight o w h t d x y.
Proof.
  unfold weight; destruct (neighbour w h d x y); [apply conductance_nonneg|lra].
Qed.

Lemma weight_present o w h t d x y nb :
  1 <= kappa o -> (x < w)%nat -> (y < h)%nat ->
  (forall x' y', (x' < w)%nat -> (y' < h)%nat -> 0 <= t x' y' 0%nat <= 1) ->
  neighbour w h d x y = Some nb -> 1/3 <= weight o w h t d x y.
Proof.
  intros Hk Hx Hy Ht Hn; unfold weight; rewrite Hn.
  apply conductance_ge_exp_m1; [|exact Hk].
  unfold gradient; destruct nb as [nx ny]; rewrite Hn.
  destruct (Smooth2Facts.neighbour_in_rect2 w h d x y nx ny Hx Hy Hn).
  pose proof (Ht nx ny ltac:(assumption) ltac:(assumption)).
  pose proof (Ht x y Hx Hy).
  apply Rabs_le; lra.
Qed.

Lemma weight_sum_ge o w h t x y :
  1 <= kappa o -> (2 <= w)%nat -> (2 <= h)%nat -> (x < w)%nat -> (y < h)%nat ->
  (forall x' y', (x' < w)%nat -> (y' < h)%nat -> 0 <= t x' y' 0%nat <= 1) ->
  2/3 <= weight_sum o w h t x y.
Proof.
  intros Hk Hw Hh Hx Hy Ht; unfold weight_sum.
  pose proof (weight_nonneg o w h t West x y).
  pose proof (weight_nonneg o w h t East x y).
  pose proof (weight_nonneg o w h t North x y).
  pose proof (weight_nonneg o w h t South x y).
  assert (Hhz : 1/3 <= weight o w h t West x y \/ 1/3 <= weight o w h t East x y).
  { destruct (Nat.ltb_spec 0 x).
    - left; apply (weight_present o w h t West x y (x - 1, y)%nat); auto.
      simpl; destruct (Nat.ltb_spec 0 x); [reflexivity|lia].
    - right; apply (weight_present o w h t East x y (x + 1, y)%nat); auto.
      simpl; destruct (Nat.ltb_spec (x + 1) w); [reflexivity|lia]. }
  assert (Hvt : 1/3 <= weight o w h t North x y \/ 1/3 <= weight o w h t South x y).
  { destruct (Nat.ltb_spec 0 y).
    - left; apply (weight_present o w h t North x y (x, y - 1)%nat); auto.
      simpl; destruct (Nat.ltb_spec 0 y); [reflexivity|lia].
    - right; apply (weight_present o w h t South x y (x, y + 1)%nat); auto.
      simpl; destruct (Nat.ltb_spec (y + 1) h); [reflexivity|lia]. }
  destruct Hhz, Hvt; lra.
Qed.

Lemma iter_fst_bounded o w h n input out0 :
  (forall x y, (x < w)%nat -> (y < h)%nat -> 0 <= input x y 0%nat <= 1) ->
  forall x y, (x < w)%nat -> (y < h)%nat ->
  0 <= fst (Nat.iter n (iteration o w h)
              (copy_rect w h input (fun _ _ _ => 0), out0)) x y 0%nat <= 1.
Proof.
  intros Hin; induction n as [|n IH]; intros x y Hx Hy.
  - simpl; rewrite copy_rect_in by assumption; apply Hin; assumption.
  - rewrite iter_succ_apply; destruct (Nat.iter n (iteration o w h) _) as [t u].
    simpl; rewrite !copy_rect_in by assumption.
    unfold update; apply CLAMP_bounds; lra.
Qed.

End Smooth2Guard.

(** X4: for an input whose channel 0 lies in [0,1] and [kappa >= 1], in a
    region at least 2x2, the weight sum of the second operation is at least
    2/3 at every pixel and every iteration: the guard
    [weight_sum > 1e-6f] always passes, so the fallback [sum = 0] is never
    taken. *)
Theorem X4_weight_guard_passes (o : props) (w h n x y : nat) (input out0 : buf)
  (Hk : 1 <= kappa o) (Hw : (2 <= w)%nat) (Hh : (2 <= h)%nat)
  (Hin : forall x' y', (x' < w)%nat -> (y' < h)%nat -> 0 <= input x' y' 0%nat <= 1)
  (Hx : (x < w)%nat) (Hy : (y < h)%nat) :
  let t := fst (Nat.iter n (Smooth2.iteration o w h)
                  (copy_rect w h input (fun _ _ _ => 0), out0)) in
  2/3 <= Smooth2.weight_sum o w h t x y /\
  1/1000000 < Smooth2.weight_sum o w h t x y.
Proof.
  cbv zeta.
  assert (H := Smooth2Guard.weight_sum_ge o w h
                 (fst (Nat.iter n (Smooth2.iteration o w h)
                         (copy_rect w h input (fun _ _ _ => 0), out0))) x y
                 Hk Hw Hh Hx Hy (Smooth2Guard.iter_fst_bounded o w h n input out0 Hin)).
  lra.
Qed.

Lemma X4_weight_guard_passes_witness :
  1/1000000 < Smooth2.weight_sum props2_ex 3 3
    (fst (Nat.iter 4 (Smooth2.iteration props2_ex 3 3)
            (copy_rect 3 3 img_centre (fun _ _ _ => 0), black))) 2%nat 0%nat.
Proof.
  apply (X4_weight_guard_passes props2_ex 3 3 4 2 0 img_centre black);
    try (simpl; lra); try lia.
  intros x y _ _; unfold img_centre; destruct (Nat.eqb x 1 && Nat.eqb y 1); lra.
Defined.

(** X5: in the first operation, for a buffer whose channel 0 lies in
    [0,1] on the region and [kappa >= 1] (so that [expf] cannot
    underflow), the test [weights[j] > 0.0f] discards only the directions
    whose neighbour is missing: every existing neighbour has a positive
    weight and contributes [weights[j] * alpha * strength * gradients[j][c]],
    so the sum is that expression over all eight directions. *)
Theorem X5_weight_test_keeps_neighbours (o : props) (w h : nat) (t : buf) (x y c : nat)
  (Hk : 1 <= kappa o)
  (Ht : forall x' y', (x' < w)%nat -> (y' < h)%nat -> 0 <= t x' y' 0%nat <= 1)
  (Hx : (x < w)%nat) (Hy : (y < h)%nat) :
  (forall d nb, Smooth1.neighbour w h d x y = Some nb -> 0 < Smooth1.weight o w h t d x y) /\
  Smooth1.flux o w h t x y c =
  fold_left (fun acc d =>
               acc + Smooth1.weight o w h t d x y * alpha o * strength o *
                     Smooth1.gradient w h t d x y c) Smooth1.dirs 0.
Proof.
  assert (Hpos : forall d nb, Smooth1.neighbour w h d x y = Some nb ->
                 0 < Smooth1.weight o w h t d x y).
  { intros d [nx ny] Hn; unfold Smooth1.weight; rewrite Hn.
    assert (Hg : Rabs (Smooth1.gradient w h t d x y 0) <= 9 * kappa o).
    { unfold Smooth1.gradient; rewrite Hn.
      destruct (Smooth1Facts.neighbour_in_rect1 w h d x y nx ny Hx Hy Hn).
      pose proof (Ht nx ny ltac:(assumption) ltac:(assumption)).
      pose proof (Ht x y Hx Hy).
      apply Rabs_le; lra. }
    pose proof (conductance_pos (Smooth1.gradient w h t d x y 0) (kappa o)
                  ltac:(lra) Hg).
    destruct (Smooth1.diagonal d); lra. }
  split; [exact Hpos|].
  assert (Hc : forall d, Smooth1.contribution o w h t d x y c =
                 Smooth1.weight o w h t d x y * alpha o * strength o *
                 Smooth1.gradient w h t d x y c).
  { intros d; unfold Smooth1.contribution.
    destruct (Smooth1.neighbour w h d x y) as [nb|] eqn:Hn.
    - destruct (Rlt_dec 0 _) as [_|Hn']; [reflexivity|].
      exfalso; apply Hn'; exact (Hpos d nb Hn).
    - unfold Smooth1.weight; rewrite Hn.
      destruct (Rlt_dec 0 0); [lra|ring]. }
  unfold Smooth1.flux; simpl; rewrite !Hc; reflexivity.
Qed.

Lemma X5_weight_test_keeps_neighbours_witness :
  0 < Smooth1.weight props1_ex 3 3 img_centre Smooth1.NW 1 1.
Proof.
  assert (Hin : forall x y, (x < 3)%nat -> (y < 3)%nat -> 0 <= img_centre x y 0%nat <= 1).
  { intros x y _ _; unfold img_centre; destruct (Nat.eqb x 1 && Nat.eqb y 1); lra. }
  exact (proj1 (X5_weight_test_keeps_neighbours props1_ex 3 3 img_centre 1 1 0
                  ltac:(simpl; lra) Hin ltac:(lia) ltac:(lia)) Smooth1.NW (0, 0)%nat eq_refl).
Defined.

Module Smooth2Mirror.
Import Smooth2.

Section Mirror.
Variables (o : props) (w h : nat) (t t' : buf).
Hypothesis Ht : same_on w h t' (mirror_x w t).

Ltac nat_cases :=
  repeat match goal with |- context [Nat.ltb ?a ?b] => destruct (Nat.ltb_spec a b) end;
  try (exfalso; lia).

Lemma gradient_mirror d x y c :
  (x < w)%nat -> (y < h)%nat ->
  gradient w h t' d x y c = gradient w h t (flip_dir d) (w - 1 - x) y c.
Proof.
  intros Hx Hy; unfold gradient; destruct d; cbv [neighbour flip_dir]; nat_cases;
    try reflexivity;
    rewrite !Ht by lia; unfold mirror_x;
    repeat match goal with |- context [(w - 1 - (?a - 1))%nat] =>
      replace (w - 1 - (a - 1))%nat with (w - 1 - a + 1)%nat by lia end;
    repeat match goal with |- context [(w - 1 - (?a + 1))%nat] =>
      replace (w - 1 - (a + 1))%nat with (w - 1 - a - 1)%nat by lia end;
    reflexivity.
Qed.

Lemma weight_mirror d x y :
  (x < w)%nat -> (y < h)%nat ->
  weight o w h t' d x y = weight o w h t (flip_dir d) (w - 1 - x) y.
Proof.
  intros Hx Hy; unfold weight; rewrite (gradient_mirror d x y 0 Hx Hy).
  destruct d; cbv [neighbour flip_dir]; nat_cases; reflexivity.
Qed.

Lemma update_mirror x y c :
  (x < w)%nat -> (y < h)%nat ->
  update o w h t' x y c = update o w h t (w - 1 - x) y c.
Proof.
  intros Hx Hy; unfold update, flux, weight_sum.
  rewrite !(weight_mirror _ x y Hx Hy), !(gradient_mirror _ x y c Hx Hy).
  rewrite (Ht x y c Hx Hy); unfold mirror_x; cbv [flip_dir].
  replace (weight o w h t East (w - 1 - x) y + weight o w h t West (w - 1 - x) y)
    with (weight o w h t West (w - 1 - x) y + weight o w h t East (w - 1 - x) y)
    by ring.
  destruct (Rlt_dec _ _); [|reflexivity].
  cbv zeta.
  match goal with |- CLAMP (_ + _ * CLAMP ?a _ _) _ _ = CLAMP (_ + _ * CLAMP ?b _ _) _ _ =>
    replace a with b by ring end; reflexivity.
Qed.

End Mirror.

Lemma iter_mirror o w h n s s' :
  same_on w h (fst s') (mirror_x w (fst s)) ->
  same_on w h (snd s') (mirror_x w (snd s)) ->
  same_on w h (fst (Nat.iter n (iteration o w h) s'))
              (mirror_x w (fst (Nat.iter n (iteration o w h) s))) /\
  same_on w h (snd (Nat.iter n (iteration o w h) s'))
              (mirror_x w (snd (Nat.iter n (iteration o w h) s))).
Proof.
  intros H1 H2; induction n as [|n [IH1 IH2]]; [split; assumption|].
  rewrite !iter_succ_apply.
  destruct (Nat.iter n (iteration o w h) s) as [t u].
  destruct (Nat.iter n (iteration o w h) s') as [t' u']; simpl in *.
  split; intros x y c Hx Hy; unfold mirror_x;
    rewrite !copy_rect_in by lia; apply update_mirror; auto.
Qed.

End Smooth2Mirror.

(** X6: the second operation commutes with the left-right mirror of the
    region: processing the mirrored input into the mirrored output gives,
    on [result], the mirror of the processed image.  West and East swap
    roles, and they enter the sums only as the first two, commuted, terms
    of [weight_sum] and of [sum[j]]. *)
Theorem X6_mirror_symmetry (o : props) (w h : nat) (input out0 : buf) :
  same_on w h (snd (Smooth2.process o w h (mirror_x w input) (mirror_x w out0)))
              (mirror_x w (snd (Smooth2.process o w h input out0))).
Proof.
  unfold Smooth2.process; destruct (degenerate w h).
  - intros x y c Hx Hy; simpl; unfold mirror_x; rewrite !copy_rect_in by lia.
    reflexivity.
  - apply (Smooth2Mirror.iter_mirror o w h (iterations o)); simpl.
    + intros x y c Hx Hy; unfold mirror_x; rewrite !copy_rect_in by lia; reflexivity.
    + intros x y c Hx Hy; reflexivity.
Qed.

Lemma CLAMP_unit_dist u v :
  0 <= v <= 1 -> Rabs (CLAMP u 0 1 - v) <= Rabs (u - v).
Proof.
  intros Hv; unfold CLAMP.
  destruct (Rlt_dec 1 u); [|destruct (Rlt_dec u 0)];
    unfold Rabs; repeat destruct Rcase_abs; lra.
Qed.

Module Smooth2Step.
Import Smooth2.

Lemma flux_bounded2 o w h t x y c : -2 <= flux o w h t x y c <= 2.
Proof.
  unfold flux; destruct (Rlt_dec _ _); [apply CLAMP_bounds; lra|lra].
Qed.

Lemma update_step o w h t x y c :
  0 <= delta_t o -> 0 <= t x y c <= 1 ->
  0 <= update o w h t x y c <= 1 /\
  Rabs (update o w h t x y c - t x y c) <= 2 * delta_t o.
Proof.
  intros Hdt Ht; unfold update; split; [apply CLAMP_bounds; lra|].
  eapply Rle_trans; [apply CLAMP_unit_dist; exact Ht|].
  replace (t x y c + delta_t o * flux o w h t x y c - t x y c)
    with (delta_t o * flux o w h t x y c) by ring.
  rewrite Rabs_mult, (Rabs_right (delta_t o)) by lra.
  pose proof (flux_bounded2 o w h t x y c).
  assert (Rabs (flux o w h t x y c) <= 2) by (apply Rabs_le; lra).
  nra.
Qed.

Lemma iter_drift2 o w h c input out0 n :
  0 <= delta_t o ->
  (forall x y, (x < w)%nat -> (y < h)%nat -> 0 <= input x y c <= 1) ->
  forall x y, (x < w)%nat -> (y < h)%nat ->
  let t := fst (Nat.iter n (iteration o w h)
                  (copy_rect w h input (fun _ _ _ => 0), out0)) in
  0 <= t x y c <= 1 /\ Rabs (t x y c - input x y c) <= 2 * delta_t o * INR n.
Proof.
  intros Hdt Hin; induction n as [|n IH]; intros x y Hx Hy; cbv zeta.
  - simpl; rewrite copy_rect_in by assumption.
    rewrite Rminus_diag, Rabs_R0; split; [apply Hin; assumption|lra].
  - specialize (IH x y Hx Hy); cbv zeta in IH.
    rewrite iter_succ_apply; destruct (Nat.iter n (iteration o w h) _) as [t u].
    cbn [fst snd Smooth2.iteration] in *; rewrite !copy_rect_in by assumption.
    destruct IH as [Hb Hd].
    destruct (update_step o w h t x y c Hdt Hb) as [Hb' Hd'].
    split; [exact Hb'|].
    rewrite S_INR.
    replace (update o w h t x y c - input x y c)
      with ((update o w h t x y c - t x y c) + (t x y c - input x y c)) by ring.
    eapply Rle_trans; [apply Rabs_triang|lra].
Qed.

End Smooth2Step.

(** X7: in the second operation each iteration moves a value of [0,1] by
    at most [2 * delta_t] (the flux is clamped to [-2,2] and the result to
    [0,1]), so, on a channel whose input lies in [0,1], the output differs
    from the input by at most [2 * delta_t * iterations]. *)
Theorem X7_bounded_change (o : props) (w h c x y : nat) (input out0 : buf)
  (Hdt : 0 <= delta_t o) (Hit : (1 <= iterations o)%nat)
  (Hin : forall x' y', (x' < w)%nat -> (y' < h)%nat -> 0 <= input x' y' c <= 1)
  (Hx : (x < w)%nat) (Hy : (y < h)%nat) :
  Rabs (snd (Smooth2.process o w h input out0) x y c - input x y c)
    <= 2 * delta_t o * INR (iterations o).
Proof.
  assert (Hpos : 0 <= 2 * delta_t o * INR (iterations o)).
  { pose proof (pos_INR (iterations o)); nra. }
  unfold Smooth2.process; destruct (degenerate w h).
  - simpl; rewrite copy_rect_in by assumption.
    rewrite Rminus_diag, Rabs_R0; exact Hpos.
  - destruct (iterations o) as [|m] eqn:Hm; [lia|].
    cbv zeta; cbn [snd].
    rewrite <- (Smooth2Iter.iter_ping_pong o w h m _ x y c Hx Hy).
    exact (proj2 (Smooth2Step.iter_drift2 o w h c input out0 (S m) Hdt Hin x y Hx Hy)).
Qed.

Lemma X7_bounded_change_witness :
  Rabs (snd (Smooth2.process props2_ex 3 3 img_centre black) 1%nat 1%nat 0%nat
        - img_centre 1%nat 1%nat 0%nat) <= 2 * (3/10) * INR 1.
Proof.
  assert (Hin : forall x y, (x < 3)%nat -> (y < 3)%nat -> 0 <= img_centre x y 0%nat <= 1).
  { intros x y _ _; unfold img_centre; destruct (Nat.eqb x 1 && Nat.eqb y 1); lra. }
  exact (X7_bounded_change props2_ex 3 3 0 1 1 img_centre black
           ltac:(simpl; lra) ltac:(simpl; lia) Hin ltac:(lia) ltac:(lia)).
Defined.

Module HawaiianFacts.
Import Hawaiian.

Lemma pixel_cases m o px py :
  (fst (pixel m o px py) = (fun j => center_color o j * center_alpha m o px py) /\
   snd (pixel m o px py) = center_alpha m o px py /\
   dist m o px py <= flower_center_radius m o px py) \/
  (fst (pixel m o px py) = (fun j => petal_color o j * petal_alpha m o px py) /\
   snd (pixel m o px py) = petal_alpha m o px py /\
   in_petal m o px py = true /\ flower_center_radius m o px py < dist m o px py) \/
  (fst (pixel m o px py) = (fun _ => 0) /\ snd (pixel m o px py) = 0 /\
   in_petal m o px py = false /\ flower_center_radius m o px py < dist m o px py).
Proof.
  unfold pixel, Rleb.
  destruct (in_petal m o px py) eqn:Hin;
    destruct (Rle_dec (dist m o px py) (flower_center_radius m o px py));
    cbn [fst snd]; [left|right; left|left|right; right]; repeat split; auto; lra.
Qed.

Lemma size_factor_pos m o px py : 0 < size_ratio o -> 0 < size_factor m o px py.
Proof. intros H; unfold size_factor; destruct (Rlt_dec _ _); lra. Qed.

Lemma dist_nonneg m o px py : 0 <= dist m o px py.
Proof. unfold dist; apply sqrt_pos. Qed.

End HawaiianFacts.

(** X8: wherever the renderer draws, the alpha it writes lies in [0,1] and
    the three colour channels are either the petal colour or the centre
    colour premultiplied by that alpha; in particular a transparent pixel
    is written as (0,0,0,0).  This holds whatever [sinf], [floorf],
    [fmodf], [atan2f] and [powf] return. *)
Theorem X8_premultiplied_alpha (m : Hawaiian.libm) (o : Hawaiian.hprops)
  (w h : nat) (rx ry : Z) (input out : buf) (x y : nat)
  (Hx : (x < w)%nat) (Hy : (y < h)%nat) :
  let r := Hawaiian.process m o w h rx ry input out in
  0 <= r x y 3%nat <= 1 /\
  ((forall j, (j < 3)%nat -> r x y j = Hawaiian.petal_color o j * r x y 3%nat) \/
   (forall j, (j < 3)%nat -> r x y j = Hawaiian.center_color o j * r x y 3%nat)).
Proof.
  cbv zeta; unfold Hawaiian.process.
  assert (Hne : (Nat.ltb w 1 || Nat.ltb h 1)%bool = false).
  { apply orb_false_iff; split; apply Nat.ltb_ge; lia. }
  assert (Hxy : in_rect w h x y = true) by (apply andb_true_iff; split; apply Nat.ltb_lt; lia).
  rewrite Hne; unfold copy_rect; rewrite Hxy.
  set (px := IZR (Z.of_nat x + rx)); set (py := IZR (Z.of_nat y + ry)).
  destruct (Hawaiian.pixel m o px py) as [color alpha] eqn:Hp.
  assert (Hc := HawaiianFacts.pixel_cases m o px py); rewrite Hp in Hc; simpl in Hc.
  simpl.
  destruct Hc as [[-> [-> _]] | [[-> [-> _]] | [-> [-> _]]]].
  - split; [apply CLAMP_bounds; lra|right].
    intros j Hj; destruct (Nat.ltb_spec j 3); [reflexivity|lia].
  - split; [apply CLAMP_bounds; lra|left].
    intros j Hj; destruct (Nat.ltb_spec j 3); [reflexivity|lia].
  - split; [lra|left].
    intros j Hj; destruct (Nat.ltb_spec j 3); [ring|lia].
Qed.

Lemma X8_premultiplied_alpha_witness :
  let m := Hawaiian.mk_libm (fun _ => 0) (fun _ => 0) (fun _ _ => 0) (fun _ _ => 0) (fun _ _ => 0) in
  let o := Hawaiian.mk_hprops 60 40 (1/2) 20 1 (fun _ => 1) (fun _ => 1) in
  0 <= Hawaiian.process m o 2 2 0 0 black black 1%nat 1%nat 3%nat <= 1.
Proof.
  cbv zeta.
  exact (proj1 (X8_premultiplied_alpha _ _ 2 2 0 0 black black 1 1 ltac:(lia) ltac:(lia))).
Defined.

Lemma Int_part_small r : 0 <= r < 1 -> Int_part r = 0%Z.
Proof.
  intros Hr; destruct (base_Int_part r) as [H1 H2].
  assert (Hlt : (Int_part r < 1)%Z) by (apply lt_IZR; lra).
  assert (Hgt : (-1 < Int_part r)%Z) by (apply lt_IZR; lra).
  lia.
Qed.

Lemma floorf_ex_small r : 0 <= r < 1 -> Hawaiian.floorf libm_ex r = 0.
Proof. intros Hr; simpl; rewrite Int_part_small by exact Hr; reflexivity. Qed.

(** At [(px, 50)] with [0 <= px < 100], for the example properties: the
    pixel is in the first cell, whose centre is [(50, 50)] and whose flower
    is a large one. *)
Lemma first_cell_ex px :
  0 <= px < 100 ->
  Hawaiian.dist libm_ex hprops_ex px 50 = sqrt ((px - 50) * (px - 50) + 0 * 0) /\
  Hawaiian.size_factor libm_ex hprops_ex px 50 = 1.
Proof.
  intros Hpx.
  assert (Hro : Hawaiian.row_offset libm_ex hprops_ex 50 = 0).
  { unfold Hawaiian.row_offset, Hawaiian.period; simpl (Hawaiian.flower_size _).
    simpl (Hawaiian.flower_spacing _); rewrite floorf_ex_small by lra; ring. }
  assert (Hcol : Hawaiian.col libm_ex hprops_ex px 50 = 0).
  { unfold Hawaiian.col; rewrite Hro; unfold Hawaiian.period; simpl (Hawaiian.flower_size _).
    simpl (Hawaiian.flower_spacing _); apply floorf_ex_small.
    split; [unfold Rdiv; apply Rmult_le_pos; [lra|left; apply Rinv_0_lt_compat; lra]|].
    apply (Rmult_lt_reg_r (60 + 40)); [lra|]; unfold Rdiv.
    rewrite Rmult_assoc, Rinv_l by lra; lra. }
  assert (Hrow : Hawaiian.row libm_ex hprops_ex 50 = 0).
  { unfold Hawaiian.row, Hawaiian.period; simpl (Hawaiian.flower_size _).
    simpl (Hawaiian.flower_spacing _); apply floorf_ex_small; lra. }
  split.
  - unfold Hawaiian.dist, Hawaiian.dx, Hawaiian.dy, Hawaiian.cx, Hawaiian.cy.
    fold (Hawaiian.col libm_ex hprops_ex px 50); rewrite Hcol, Hro.
    fold (Hawaiian.row libm_ex hprops_ex 50); rewrite Hrow.
    unfold Hawaiian.period; simpl (Hawaiian.flower_size _); simpl (Hawaiian.flower_spacing _).
    apply f_equal; field.
  - unfold Hawaiian.size_factor; rewrite Hrow, Hcol; simpl Hawaiian.fmodf.
    replace ((0 + 0) / 2) with 0 by field; rewrite Int_part_small by lra.
    destruct (Rlt_dec _ _) as [_|Hn]; [reflexivity|exfalso; apply Hn; simpl; lra].
Qed.

(** X9: a pixel of a flower centre (distance to the flower's centre at most
    [flower_center_radius], for a positive size and size ratio) is drawn in
    the centre colour premultiplied by an alpha of at least 1/2: the soft
    edge falls off linearly from 1 at the centre to 1/2 at the rim, and the
    centre covers any petal. *)
Theorem X9_centre_disc (m : Hawaiian.libm) (o : Hawaiian.hprops) (px py : R)
  (Hsize : 0 < Hawaiian.flower_size o) (Hratio : 0 < Hawaiian.size_ratio o)
  (Hin : Hawaiian.dist m o px py <= Hawaiian.flower_center_radius m o px py) :
  1/2 <= snd (Hawaiian.pixel m o px py) <= 1 /\
  forall j, fst (Hawaiian.pixel m o px py) j =
            Hawaiian.center_color o j * snd (Hawaiian.pixel m o px py).
Proof.
  assert (Hsf := HawaiianFacts.size_factor_pos m o px py Hratio).
  assert (Hr : 0 < Hawaiian.flower_center_radius m o px py).
  { unfold Hawaiian.flower_center_radius, Hawaiian.center_radius.
    apply Rmult_lt_0_compat; lra. }
  assert (Hd := HawaiianFacts.dist_nonneg m o px py).
  destruct (HawaiianFacts.pixel_cases m o px py)
    as [[Hc [Ha _]] | [[_ [_ [_ Hlt]]] | [_ [_ [_ Hlt]]]]]; [|lra|lra].
  rewrite Hc, Ha; split; [|reflexivity].
  unfold Hawaiian.center_alpha; cbv zeta.
  set (d := Hawaiian.dist m o px py) in *.
  set (r := Hawaiian.flower_center_radius m o px py) in *.
  assert (Hq : 0 <= d / r <= 1).
  { split; [unfold Rdiv; apply Rmult_le_pos; [lra|left; apply Rinv_0_lt_compat; lra]|].
    apply (Rmult_le_reg_r r); [lra|]; unfold Rdiv.
    rewrite Rmult_assoc, Rinv_l by lra; lra. }
  rewrite CLAMP_id by lra; lra.
Qed.

Lemma X9_centre_disc_witness :
  1/2 <= snd (Hawaiian.pixel libm_ex hprops_ex 50 50) <= 1.
Proof.
  destruct (first_cell_ex 50 ltac:(lra)) as [Hd Hs].
  refine (proj1 (X9_centre_disc libm_ex hprops_ex 50 50
                   ltac:(simpl; lra) ltac:(simpl; lra) _)).
  rewrite Hd; unfold Hawaiian.flower_center_radius; rewrite Hs.
  replace ((50 - 50) * (50 - 50) + 0 * 0) with 0 by ring; rewrite sqrt_0.
  unfold Hawaiian.center_radius; simpl; lra.
Defined.

(** X10: at the petal radius and beyond (for a positive size and size
    ratio) the renderer draws nothing: the pixel is transparent black,
    whatever the petal angle. *)
Theorem X10_beyond_petals_transparent (m : Hawaiian.libm) (o : Hawaiian.hprops) (px py : R)
  (Hsize : 0 < Hawaiian.flower_size o) (Hratio : 0 < Hawaiian.size_ratio o)
  (Hout : Hawaiian.petal_radius m o px py <= Hawaiian.dist m o px py) :
  snd (Hawaiian.pixel m o px py) = 0 /\
  forall j, fst (Hawaiian.pixel m o px py) j = 0.
Proof.
  assert (Hsf := HawaiianFacts.size_factor_pos m o px py Hratio).
  assert (Hr : Hawaiian.flower_center_radius m o px py < Hawaiian.petal_radius m o px py).
  { unfold Hawaiian.flower_center_radius, Hawaiian.petal_radius,
      Hawaiian.center_radius, Hawaiian.base_radius.
    apply Rmult_lt_compat_r; lra. }
  destruct (HawaiianFacts.pixel_cases m o px py)
    as [[_ [_ Hle]] | [[_ [_ [Hp _]]] | [Hc [Ha _]]]].
  - lra.
  - exfalso; unfold Hawaiian.in_petal, Hawaiian.Rltb in Hp.
    destruct (Rlt_dec (Hawaiian.dist m o px py) (Hawaiian.petal_radius m o px py)); [lra|].
    discriminate Hp.
  - rewrite Hc, Ha; split; reflexivity.
Qed.

Lemma X10_beyond_petals_transparent_witness :
  snd (Hawaiian.pixel libm_ex hprops_ex 90 50) = 0.
Proof.
  destruct (first_cell_ex 90 ltac:(lra)) as [Hd Hs].
  refine (proj1 (X10_beyond_petals_transparent libm_ex hprops_ex 90 50
                   ltac:(simpl; lra) ltac:(simpl; lra) _)).
  rewrite Hd; unfold Hawaiian.petal_radius; rewrite Hs.
  replace ((90 - 50) * (90 - 50) + 0 * 0) with (Rsqr 40) by (unfold Rsqr; ring).
  rewrite sqrt_Rsqr by lra.
  unfold Hawaiian.base_radius; simpl; lra.
Defined.

Module Smooth1Step.
Import Smooth1.

Lemma contribution_bounded o w h t d x y c :
  0 <= alpha o -> 0 <= strength o -> (x < w)%nat -> (y < h)%nat ->
  (forall x' y', (x' < w)%nat -> (y' < h)%nat -> 0 <= t x' y' c <= 1) ->
  - bound1 o d <= contribution o w h t d x y c <= bound1 o d.
Proof.
  intros Ha Hs Hx Hy Ht.
  assert (Hb : 0 <= bound1 o d).
  { unfold bound1; apply Rmult_le_pos; [nra|destruct (diagonal d); lra]. }
  unfold contribution.
  destruct (Rlt_dec 0 (weight o w h t d x y)) as [Hw|]; [|lra].
  assert (Hg : -1 <= gradient w h t d x y c <= 1).
  { unfold gradient; destruct (neighbour w h d x y) as [[nx ny]|] eqn:Hn; [|lra].
    destruct (Smooth1Facts.neighbour_in_rect1 w h d x y nx ny Hx Hy Hn).
    pose proof (Ht nx ny ltac:(assumption) ltac:(assumption)).
    pose proof (Ht x y Hx Hy); lra. }
  assert (Hwb : weight o w h t d x y <= if diagonal d then 707/1000 else 1).
  { unfold weight; destruct (neighbour w h d x y); [|destruct (diagonal d); lra].
    pose proof (conductance_le_1 (gradient w h t d x y 0) (kappa o)).
    destruct (diagonal d); lra. }
  unfold bound1 in *.
  set (k := if diagonal d then 707/1000 else 1) in *.
  set (wd := weight o w h t d x y) in *.
  set (g := gradient w h t d x y c) in *.
  assert (Has : 0 <= alpha o * strength o) by nra.
  assert (0 <= wd * (alpha o * strength o) <= alpha o * strength o * k) by nra.
  split; nra.
Qed.

Lemma flux_bounded1 o w h t x y c :
  0 <= alpha o -> 0 <= strength o -> (x < w)%nat -> (y < h)%nat ->
  (forall x' y', (x' < w)%nat -> (y' < h)%nat -> 0 <= t x' y' c <= 1) ->
  Rabs (flux o w h t x y c) <= alpha o * strength o * (6828/1000).
Proof.
  intros Ha Hs Hx Hy Ht; unfold flux; simpl.
  pose proof (contribution_bounded o w h t W x y c Ha Hs Hx Hy Ht).
  pose proof (contribution_bounded o w h t E x y c Ha Hs Hx Hy Ht).
  pose proof (contribution_bounded o w h t N x y c Ha Hs Hx Hy Ht).
  pose proof (contribution_bounded o w h t S x y c Ha Hs Hx Hy Ht).
  pose proof (contribution_bounded o w h t NW x y c Ha Hs Hx Hy Ht).
  pose proof (contribution_bounded o w h t NE x y c Ha Hs Hx Hy Ht).
  pose proof (contribution_bounded o w h t SW x y c Ha Hs Hx Hy Ht).
  pose proof (contribution_bounded o w h t SE x y c Ha Hs Hx Hy Ht).
  unfold bound1 in *; simpl diagonal in *.
  apply Rabs_le; lra.
Qed.

Lemma iter_drift1 o w h c input out0 n :
  0 <= delta_t o -> 0 <= alpha o -> 0 <= strength o ->
  (forall x y, (x < w)%nat -> (y < h)%nat -> 0 <= input x y c <= 1) ->
  forall x y, (x < w)%nat -> (y < h)%nat ->
  let t := Nat.iter n (iteration o w h) (copy_rect w h input out0) in
  0 <= t x y c <= 1 /\
  Rabs (t x y c - input x y c) <= delta_t o * (alpha o * strength o * (6828/1000)) * INR n.
Proof.
  intros Hdt Ha Hs Hin; induction n as [|n IH]; intros x y Hx Hy; cbv zeta.
  - change (Nat.iter 0 ?f ?a) with a; change (INR 0) with 0.
    rewrite copy_rect_in by assumption.
    rewrite Rminus_diag, Rabs_R0, Rmult_0_r; split; [apply Hin; assumption|lra].
  - assert (IHb : forall x' y', (x' < w)%nat -> (y' < h)%nat ->
              0 <= Nat.iter n (iteration o w h) (copy_rect w h input out0) x' y' c <= 1)
      by (intros x' y' Hx' Hy'; exact (proj1 (IH x' y' Hx' Hy'))).
    destruct (IH x y Hx Hy) as [_ Hd]; clear IH.
    rewrite iter_succ_apply.
    set (t := Nat.iter n (iteration o w h) (copy_rect w h input out0)) in *.
    unfold iteration; rewrite copy_rect_in by assumption.
    unfold update; split; [apply CLAMP_bounds; lra|].
    pose proof (flux_bounded1 o w h t x y c Ha Hs Hx Hy IHb) as Hf.
    rewrite S_INR.
    replace (CLAMP (t x y c + delta_t o * flux o w h t x y c) 0 1 - input x y c)
      with ((CLAMP (t x y c + delta_t o * flux o w h t x y c) 0 1 - t x y c) +
            (t x y c - input x y c)) by ring.
    eapply Rle_trans; [apply Rabs_triang|].
    assert (Hstep : Rabs (CLAMP (t x y c + delta_t o * flux o w h t x y c) 0 1 - t x y c)
                    <= delta_t o * (alpha o * strength o * (6828/1000))).
    { eapply Rle_trans; [apply CLAMP_unit_dist; apply IHb; assumption|].
      replace (t x y c + delta_t o * flux o w h t x y c - t x y c)
        with (delta_t o * flux o w h t x y c) by ring.
      rewrite Rabs_mult, (Rabs_right (delta_t o)) by lra.
      apply Rmult_le_compat_l; assumption. }
    lra.
Qed.

End Smooth1Step.

(** X11: in the first operation, whose flux is not clamped, a channel whose
    input lies in [0,1] still moves by at most
    [delta_t * alpha * strength * (4 + 4 * 0.707)] per iteration: each
    conductance is at most 1 (0.707 on the diagonals) and each gradient at
    most 1 in size.  So the output differs from the input by at most that
    amount times [iterations]. *)
Theorem X11_bounded_change (o : props) (w h c x y : nat) (input out0 : buf)
  (Hdt : 0 <= delta_t o) (Ha : 0 <= alpha o) (Hs : 0 <= strength o)
  (Hin : forall x' y', (x' < w)%nat -> (y' < h)%nat -> 0 <= input x' y' c <= 1)
  (Hx : (x < w)%nat) (Hy : (y < h)%nat) :
  Rabs (snd (Smooth1.process o true w h input out0) x y c - input x y c)
    <= delta_t o * (alpha o * strength o * (6828/1000)) * INR (iterations o).
Proof.
  assert (Hpos : 0 <= delta_t o * (alpha o * strength o * (6828/1000)) * INR (iterations o)).
  { pose proof (pos_INR (iterations o)).
    apply Rmult_le_pos; [apply Rmult_le_pos; [lra|]|lra].
    apply Rmult_le_pos; [nra|lra]. }
  unfold Smooth1.process; destruct (degenerate w h); cbn [negb snd].
  - rewrite copy_rect_in by assumption.
    rewrite Rminus_diag, Rabs_R0; exact Hpos.
  - exact (proj2 (Smooth1Step.iter_drift1 o w h c input out0 (iterations o)
                    Hdt Ha Hs Hin x y Hx Hy)).
Qed.

Lemma X11_bounded_change_witness :
  Rabs (snd (Smooth1.process props1_max true 3 3 img_centre black) 1%nat 1%nat 0%nat
        - img_centre 1%nat 1%nat 0%nat)
    <= 2/10 * (1/2 * 2 * (6828/1000)) * INR 1.
Proof.
  assert (Hin : forall x y, (x < 3)%nat -> (y < 3)%nat -> 0 <= img_centre x y 0%nat <= 1).
  { intros x y _ _; unfold img_centre; destruct (Nat.eqb x 1 && Nat.eqb y 1); lra. }
  exact (X11_bounded_change props1_max 3 3 0 1 1 img_centre black
           ltac:(simpl; lra) ltac:(simpl; lra) ltac:(simpl; lra) Hin ltac:(lia) ltac:(lia)).
Defined.
